(** * mmark, xml2rfc.go: the code shared by the two xml2rfc renderers

    A shallow embedding of [xml2rfc.go] and the properties of its
    citation resolver, citation catalog, entity encoder, markup stripper
    and title-block emitters.

    Conventions of the embedding:
    - a Go [string] is a [string]; [+] on strings is [+:+];
    - a Go [[]byte] and the contents of a [*bytes.Buffer] are [list byte];
      the conversions [[]byte(s)] and [string(b)] are [bytes_of] and
      [string_of];
    - a Go [int] is a [Z] (no arithmetic of the file can overflow);
    - a function that writes to [out *bytes.Buffer] takes the contents of
      the buffer and returns the contents after the call;
    - a slice modified in place is a [list byte] read with [!!] and
      written with [<[ _ := _ ]>], and an index out of range is [None]
      (the run-time panic of Go). *)

From Stdlib Require Import ZArith NArith Lia.
From Stdlib Require Import Strings.Byte Strings.Ascii Strings.String.
From stdpp Require Import base list strings gmap sorting.

Local Open Scope Z_scope.

(** ** Strings and byte slices *)

Abbreviation bytes_of := String.list_byte_of_string.
Abbreviation string_of := String.string_of_list_byte.

(** The line feed and the double quote, written with a backslash in the
    Go source. *)
Definition LF : ascii := Ascii.ascii_of_nat 10.
Definition DQ : ascii := Ascii.ascii_of_nat 34.
Definition nl : string := String LF "".
Definition dq : string := String DQ "".

(** ** Formatting of integers ([fmt] and [strconv]) *)

(** [digits[u]] for [u < 10], as in [fmt.fmtInteger] with [ldigits]. *)
Definition digit (u : N) : ascii :=
  match u with
  | 0 => "0" | 1 => "1" | 2 => "2" | 3 => "3" | 4 => "4"
  | 5 => "5" | 6 => "6" | 7 => "7" | 8 => "8" | _ => "9"
  end%N%char.

(** The decimal loop of [fmt.fmtInteger] and [strconv.formatBits]:
    [for u >= 10 { i--; next := u / 10; buf[i] = '0' + u - next*10; u = next }]
    and then [i--; buf[i] = digits[u]]. The buffer is filled from its end,
    so [buf] holds the digits written so far. [fuel] bounds the number of
    turns. *)
Fixpoint fmt_loop (fuel : nat) (u : N) (buf : string) : string :=
  match fuel with
  | O => String (digit u) buf
  | S fuel' =>
      if (10 <=? u)%N
      then let next := (u / 10)%N in
           fmt_loop fuel' next (String (digit (u - next * 10)) buf)
      else String (digit u) buf
  end.

(** A number of [n] bits has at most [n] decimal digits. *)
Definition fmt_digits (u : N) : string :=
  fmt_loop (N.to_nat (N.size u)) u "".

(** [for i > 0 && prec > len(buf)-i { i--; buf[i] = '0' }]: leading zeros
    up to [prec] digits. *)
Fixpoint zero_pad (n : nat) (s : string) : string :=
  match n with
  | O => s
  | S n' => zero_pad n' (String "0" s)
  end.

(** [fmt.Sprintf("%02d", v)]: width 2 with the zero flag. The precision is
    the width, less one when a sign is written. *)
Definition Sprintf_02d (v : Z) : string :=
  let negative := v <? 0 in
  let ds := fmt_digits (Z.abs_N v) in
  let prec := if negative then 1%nat else 2%nat in
  let ds := zero_pad (prec - String.length ds) ds in
  if negative then String "-" ds else ds.

(** [strconv.Itoa(v)]. *)
Definition Itoa (v : Z) : string :=
  let ds := fmt_digits (Z.abs_N v) in
  if v <? 0 then String "-" ds else ds.

(** The value of a string of decimal digits, most significant first. *)
Definition digit_value (c : ascii) : N := (N_of_ascii c - 48)%N.
Fixpoint decimal_value_from (acc : N) (s : string) : N :=
  match s with
  | EmptyString => acc
  | String c s' => decimal_value_from (acc * 10 + digit_value c)%N s'
  end.
Definition decimal_value (s : string) : N := decimal_value_from 0 s.

(** A decimal numeral padded with zeros on the left to two digits or
    more. *)
Definition pad_two (s : string) : string :=
  if (String.length s <? 2)%nat then String "0" s else s.

Definition is_digit (c : ascii) : bool :=
  ((48 <=? N_of_ascii c) && (N_of_ascii c <=? 57))%N.
Fixpoint all_digits (s : string) : bool :=
  match s with
  | EmptyString => true
  | String c s' => is_digit c && all_digits s'
  end.

(** ** The citation resolver *)

(** The fields of [citation] that this file reads. The struct is declared
    in another file of the package: [link] is a byte slice (the code
    slices it and converts it with [string(...)]), [typ] is a byte (the
    code compares it with ['i'] and ['n']) and [seq] is an [int]. The
    functions take pointers to citations; a record stands for the
    citation pointed to. *)
Record citation := Citation {
  link : list byte;
  typ : byte;
  seq : Z
}.

(** The two package variables with the URLs of the bibliography. *)
Record urls := Urls {
  CitationsID : string;
  CitationsRFC : string
}.

(** Their values in the source. *)
Definition current_urls : urls :=
  {| CitationsID := "http://xml2rfc.ietf.org/public/rfc/bibxml3/";
     CitationsRFC := "http://xml2rfc.ietf.org/public/rfc/bibxml/" |}.

Definition referenceRFC : string := "reference.RFC.".
Definition referenceID : string := "reference.I-D.draft-".
Definition referenceIDLatest : string := "reference.I-D.".
Definition ext : string := ".xml".

Definition referenceFile (g : urls) (c : citation) : string :=
  if (length (link c) <? 4)%nat then ""
  else
    let kind := string_of (take 3 (link c)) in
    if String.eqb kind "RFC" then
      CitationsRFC g +:+ referenceRFC +:+ string_of (drop 3 (link c)) +:+ ext
    else if String.eqb kind "I-D" then
      if negb (seq c =? -1) then
        let seq := "-" +:+ Sprintf_02d (seq c) in
        CitationsID g +:+ referenceID +:+ string_of (drop 4 (link c)) +:+ seq +:+ ext
      else
        CitationsID g +:+ referenceIDLatest +:+ string_of (drop 4 (link c)) +:+ ext
    else "".

(** ** The citation catalog *)

(** [sort.Strings]: ascending order of [<] on Go strings, which compares
    byte by byte. [String.le] is that order ([String.leb] of the standard
    library compares the codes of the characters from the left). The
    sorted arrangement of a list is unique ([sort_Strings_unique] below),
    so the sorting algorithm does not show in the result. *)
Definition sort_Strings (keys : list string) : list string :=
  merge_sort String.le keys.

(** One turn of [for k, c := range citations]. *)
Definition count_step (acc : Z * Z * list string) (kc : string * citation)
    : Z * Z * list string :=
  let '(refi, refn, keys) := acc in
  let '(k, c) := kc in
  let refi := if Byte.eqb (typ c) "i" then refi + 1 else refi in
  let refn := if Byte.eqb (typ c) "n" then refn + 1 else refn in
  (refi, refn, keys ++ [k]).

(** The body of [countCitationsAndSort] for one order of iteration over
    the map. Go leaves that order unspecified, so [entries] is any
    arrangement of the entries of the map. *)
Definition countCitationsAndSort_range (entries : list (string * citation))
    : Z * Z * list string :=
  let '(refi, refn, keys) := foldl count_step (0, 0, []) entries in
  (refi, refn, sort_Strings keys).

(** The map holds pointers to citations; the record stands for the
    citation pointed to. *)
Definition countCitationsAndSort (citations : gmap string citation)
    : Z * Z * list string :=
  countCitationsAndSort_range (map_to_list citations).

(** The two classes of a citation. *)
Definition informative (c : citation) : Prop := typ c = "i"%byte.
Definition normative (c : citation) : Prop := typ c = "n"%byte.

Global Instance informative_dec (c : citation) : Decision (informative c) :=
  Byte.byte_eq_dec (typ c) "i"%byte.
Global Instance normative_dec (c : citation) : Decision (normative c) :=
  Byte.byte_eq_dec (typ c) "n"%byte.

(** ** The entity encoder *)

Global Instance byte_eq_dec : EqDecision byte := Byte.byte_eq_dec.
Global Instance byte_countable : Countable byte :=
  inj_countable Byte.to_N Byte.of_N Byte.of_to_N.

Definition entityConvert : gmap byte (list byte) :=
  {[ "<"%byte := bytes_of "&lt;";
     ">"%byte := bytes_of "&gt;";
     "&"%byte := bytes_of "&amp;" ]}.

(** The replacement of a byte as the specification words it: the named
    entity of [<], [>] and [&], and the byte itself otherwise. *)
Definition entity (b : byte) : list byte :=
  if Byte.eqb b "<" then bytes_of "&lt;"
  else if Byte.eqb b ">" then bytes_of "&gt;"
  else if Byte.eqb b "&" then bytes_of "&amp;"
  else [b].

(** [out.Write], [out.WriteByte] and [out.WriteString] append to the
    buffer. *)
Definition Write (out : list byte) (p : list byte) : list byte := out ++ p.
Definition WriteByte (out : list byte) (c : byte) : list byte := out ++ [c].
Definition WriteString (out : list byte) (s : string) : list byte :=
  out ++ bytes_of s.

Fixpoint writeEntity (out : list byte) (text : list byte) : list byte :=
  match text with
  | [] => out
  | b :: text' =>
      match entityConvert !! b with
      | Some s => writeEntity (Write out s) text'
      | None => writeEntity (WriteByte out b) text'
      end
  end.

(** ** The markup stripper *)

(** [s[j] = b]: a store into the slice, which panics out of range. *)
Definition store (s : list byte) (j : nat) (b : byte) : option (list byte) :=
  if decide (j < length s)%nat then Some (<[j:=b]> s) else None.

(** [s[:j]], which panics when [j] is past the end. *)
Definition slice_to (s : list byte) (j : nat) : option (list byte) :=
  if decide (j <= length s)%nat then Some (take j s) else None.

(** The loop of [sanitizeXML]: [n] is the number of turns left,
    [len(s) - i]. The slice [s] is the one the caller passed, written in
    place. The result is the slice after the loop and [j]. *)
Fixpoint sanitizeXML_loop (n i j : nat) (inTag : bool) (s : list byte)
    : option (list byte * nat) :=
  match n with
  | O => Some (s, j)
  | S n' =>
      b ← s !! i;
      if Byte.eqb b "<" then sanitizeXML_loop n' (S i) j true s
      else if Byte.eqb b ">" then sanitizeXML_loop n' (S i) j false s
      else if negb inTag then
        s' ← store s j b;
        sanitizeXML_loop n' (S i) (S j) inTag s'
      else sanitizeXML_loop n' (S i) j inTag s
  end.

Definition sanitizeXML (s : list byte) : option (list byte) :=
  '(s', j) ← sanitizeXML_loop (length s) 0 0 false s;
  slice_to s' j.

(** The loop of [writeSanitizeXML] reads [s] from the left and does not
    write it; [s] is what is left to read. *)
Fixpoint writeSanitizeXML_loop (inTag : bool) (out : list byte) (s : list byte)
    : list byte :=
  match s with
  | [] => out
  | b :: s' =>
      if Byte.eqb b "<" then writeSanitizeXML_loop true out s'
      else if Byte.eqb b ">" then writeSanitizeXML_loop false out s'
      else if negb inTag then writeSanitizeXML_loop inTag (WriteByte out b) s'
      else writeSanitizeXML_loop inTag out s'
  end.

Definition writeSanitizeXML (out : list byte) (s : list byte) : list byte :=
  writeSanitizeXML_loop false out s.

(** The stripper as the specification words it: a tag span begins with
    a [<] met outside a tag and ends with the next [>], both included;
    the bytes outside the spans are copied in order, the bytes inside
    are dropped, and a span that is not closed runs to the end. [inside]
    tells whether the scan is in a span. *)
Fixpoint strip_spans (inside : bool) (s : list byte) : list byte :=
  match s with
  | [] => []
  | b :: s' =>
      if inside then
        if Byte.eqb b ">" then strip_spans false s' else strip_spans true s'
      else
        if Byte.eqb b "<" then strip_spans true s' else b :: strip_spans false s'
  end.

(** A byte other than [>]. *)
Definition not_gt (b : byte) : bool := negb (Byte.eqb b ">").

(** ** The title block *)

(** The author of the TOML title block, with the fields the emitter
    reads; the struct is declared in another file of the package. *)
Record postal := Postal_ {
  Street : string;
  City : string;
  Code : string;
  Country : string
}.

Record address := Address_ {
  Phone : string;
  Email : string;
  Uri : string;
  Postal : postal
}.

Record author := Author {
  Initials : string;
  Surname : string;
  Fullname : string;
  Organization : string;
  OrganizationAbbrev : string;
  Address : address
}.

(** [strings.Split(s, "\n")]: the pieces of [s] between line feeds, one
    more than there are line feeds, so the empty string gives one empty
    piece. *)
Fixpoint Split_nl (s : string) : list string :=
  match s with
  | EmptyString => [""]
  | String c s' =>
      if Ascii.eqb c LF then "" :: Split_nl s'
      else match Split_nl s' with
           | piece :: pieces => String c piece :: pieces
           | [] => [String c ""]
           end
  end.

(** [for _, x := range xs { out.WriteString(open); writeEntity(out,
    []byte(x)); out.WriteString(close) }]. *)
Definition write_encoded_lines (open close : string) (out : list byte)
    (xs : list string) : list byte :=
  foldl (fun out x =>
           let out := WriteString out open in
           let out := writeEntity out (bytes_of x) in
           WriteString out close) out xs.

(** [for _, x := range xs { out.WriteString(open + x + close) }]. *)
Definition write_raw_lines (open close : string) (out : list byte)
    (xs : list string) : list byte :=
  foldl (fun out x => WriteString out (open +:+ x +:+ close)) out xs.

Definition titleBlockTOMLAuthor (out : list byte) (a : author) : list byte :=
  let out := WriteString out "<author" in
  let out := WriteString out (" initials=" +:+ dq) in
  let out := writeEntity out (bytes_of (Initials a)) in
  let out := WriteString out dq in
  let out := WriteString out (" surname=" +:+ dq) in
  let out := writeEntity out (bytes_of (Surname a)) in
  let out := WriteString out dq in
  let out := WriteString out (" fullname=" +:+ dq) in
  let out := writeEntity out (bytes_of (Fullname a)) in
  let out := WriteString out (dq +:+ ">" +:+ nl) in
  let abbrev :=
    if negb (String.eqb (OrganizationAbbrev a) "")
    then " abbrev=" +:+ dq +:+ OrganizationAbbrev a +:+ dq
    else "" in
  let out := WriteString out ("<organization" +:+ abbrev +:+ ">") in
  let out := writeEntity out (bytes_of (Organization a)) in
  let out := WriteString out ("</organization>" +:+ nl) in
  let out := WriteString out ("<address>" +:+ nl) in
  let out := WriteString out ("<postal>" +:+ nl) in
  let out := write_encoded_lines "<street>" ("</street>" +:+ nl) out
               (Split_nl (Street (Postal (Address a)))) in
  let out := write_encoded_lines "<city>" ("</city>" +:+ nl) out
               (Split_nl (City (Postal (Address a)))) in
  let out := write_raw_lines "<code>" ("</code>" +:+ nl) out
               (Split_nl (Code (Postal (Address a)))) in
  let out := write_encoded_lines "<country>" ("</country>" +:+ nl) out
               (Split_nl (Country (Postal (Address a)))) in
  let out := WriteString out ("</postal>" +:+ nl) in
  let out := WriteString out ("<phone>" +:+ Phone (Address a) +:+ "</phone>" +:+ nl) in
  let out := WriteString out ("<email>" +:+ Email (Address a) +:+ "</email>" +:+ nl) in
  let out := WriteString out ("<uri>" +:+ Uri (Address a) +:+ "</uri>" +:+ nl) in
  let out := WriteString out ("</address>" +:+ nl) in
  WriteString out ("</author>" +:+ nl).

(** A [time.Time], as far as [titleBlockTOMLDate] reads it: the date of
    the instant in its location, which is a day of the calendar. Package
    [time] is not part of the sources; the model keeps what its
    documentation states: [Month()] is in 1..12, [Day()] is a day of
    that month, and [Year()] is any year, the years before year 1
    included. *)
Record civil := Civil {
  civil_year : Z;
  civil_month : Z;
  civil_day : Z
}.

(** [isLeap] and the number of days of a month, as in package [time]. *)
Definition isLeap (year : Z) : bool :=
  (Z.rem year 4 =? 0) && (negb (Z.rem year 100 =? 0) || (Z.rem year 400 =? 0)).

Definition daysIn (month year : Z) : Z :=
  if month =? 2 then (if isLeap year then 29 else 28)
  else if (month =? 4) || (month =? 6) || (month =? 9) || (month =? 11) then 30
  else 31.

Definition valid_civil (c : civil) : bool :=
  (1 <=? civil_month c) && (civil_month c <=? 12) &&
  (1 <=? civil_day c) && (civil_day c <=? daysIn (civil_month c) (civil_year c)).

Record Time := mkTime {
  civil_of : civil;
  Time_valid : Is_true (valid_civil civil_of)
}.

(** [d.Year()], [d.Month()] and [d.Day()]. *)
Definition Year (d : Time) : Z := civil_year (civil_of d).
Definition Month (d : Time) : Z := civil_month (civil_of d).
Definition Day (d : Time) : Z := civil_day (civil_of d).

(** The zero value [time.Time{}]: January 1 of year 1. *)
Definition zero_Time : Time := mkTime (Civil 1 1 1) I.

(** The time of a day of the calendar; a triple that is no day of the
    calendar is not met ([Time_of_civil_Date_civil] below). *)
Definition Time_of_civil (c : civil) : Time :=
  match decide (Is_true (valid_civil c)) with
  | left H => mkTime c H
  | right _ => zero_Time
  end.

(** The day after and the day before a day of the calendar. *)
Definition next_day (c : civil) : civil :=
  let '(Civil y m d) := c in
  if d <? daysIn m y then Civil y m (d + 1)
  else if m <? 12 then Civil y (m + 1) 1
  else Civil (y + 1) 1 1.

Definition prev_day (c : civil) : civil :=
  let '(Civil y m d) := c in
  if 1 <? d then Civil y m (d - 1)
  else if 1 <? m then Civil y (m - 1) (daysIn (m - 1) y)
  else Civil (y - 1) 12 31.

(** [time.Date(year, month, day, 0, 0, 0, 0, time.UTC)]: values outside
    their usual ranges are normalized. The month overflows into the year
    (month 0 is December of the year before, month 13 January of the
    year after); the day is counted from the first day of that month
    (day 0 is the last day of the month before, October 32 is November
    1). *)
Definition Date_civil (year month day : Z) : civil :=
  let m := month - 1 in
  let first := Civil (year + m / 12) (m mod 12 + 1) 1 in
  if 1 <=? day then Nat.iter (Z.to_nat (day - 1)) next_day first
  else Nat.iter (Z.to_nat (1 - day)) prev_day first.

Definition Date (year month day : Z) : Time :=
  Time_of_civil (Date_civil year month day).

(** [longMonthNames] of package [time]. *)
Definition longMonthNames : list string :=
  ["January"; "February"; "March"; "April"; "May"; "June"; "July";
   "August"; "September"; "October"; "November"; "December"].

(** [time.Month(m).String()]: the name of the month from January (1) to
    December (12), and for another value the number, converted to
    [uint64], between [%!Month(] and [)]. *)
Definition Month_String (m : Z) : string :=
  if (1 <=? m) && (m <=? 12)
  then nth (Z.to_nat (m - 1)) longMonthNames ""
  else "%!Month(" +:+ fmt_digits (Z.to_N (m mod 2 ^ 64)) +:+ ")".

Definition titleBlockTOMLDate (out : list byte) (d : Time) : list byte :=
  let year :=
    if 0 <? Year d then " year=" +:+ dq +:+ Itoa (Year d) +:+ dq else "" in
  let month :=
    if 0 <? Month d then " month=" +:+ dq +:+ Month_String (Month d) +:+ dq else "" in
  let day :=
    if 0 <? Day d then " day=" +:+ dq +:+ Itoa (Day d) +:+ dq else "" in
  WriteString out ("<date" +:+ year +:+ month +:+ day +:+ "/>" +:+ nl +:+ nl).

(** The process instructions of the title block, with the fields the
    emitter reads; the struct is declared in another file of the
    package. *)
Record pi := Pi {
  Toc : string;
  Symrefs : string;
  Sortrefs : string;
  Compact : string;
  Topblock : string;
  Comments : string;
  Subcompact : string;
  Private : string;
  Header : string;
  Footer : string
}.

Definition yesno (s def : string) : string :=
  if String.eqb s "" then def
  else if String.eqb s "yes" then "yes"
  else "no".

(** An entry of a diagnostic sink kept as a list: the format and the
    argument of a report. *)
Record diagnostic := Diagnostic {
  format : string;
  argument : string
}.

(** Modelled from the spec: [printf], the reporter of anomalies, is a
    function of the package that is not in this file. It reports through
    a diagnostic sink and is not fatal; on a sink kept as a list, a call
    appends its format and its argument and returns. *)
Definition printf_list (sink : list diagnostic) (fmt arg : string)
    : list diagnostic :=
  sink ++ [Diagnostic fmt arg].

(** The names that [titleBlockTOMLPI] handles for version 2. *)
Definition pi_names : list string :=
  ["toc"; "symrefs"; "sortrefs"; "compact"; "topblock"; "comments";
   "subcompact"; "private"; "header"; "footer"].

Section TitleBlockPI.

(** The marker of a header or footer that was not set, a constant of
    another file of the package. *)
Variable piNotSet : string.

(** The diagnostic sink and [printf], the function of another file of
    the package that reports through it and returns. Its first argument
    is [nil] at the only call of this file and is left out. *)
Variable Sink : Type.
Variable printf : Sink → string → string → Sink.

(** One processing instruction of xml2rfc version 2: the name, the
    value between double quotes, and a line feed. *)
Definition rfc_pi (name value : string) : string :=
  "<?rfc " +:+ name +:+ "=" +:+ dq +:+ value +:+ dq +:+ "?>" +:+ nl.

(** The result and the sink after the call. *)
Definition titleBlockTOMLPI (sink : Sink) (p : pi) (name : string)
    (version : Z) : string * Sink :=
  if version =? 2 then
    if String.eqb name "toc" then (rfc_pi "toc" (yesno (Toc p) "yes"), sink)
    else if String.eqb name "symrefs" then (rfc_pi "symrefs" (yesno (Symrefs p) "yes"), sink)
    else if String.eqb name "sortrefs" then (rfc_pi "sortrefs" (yesno (Sortrefs p) "yes"), sink)
    else if String.eqb name "compact" then (rfc_pi "compact" (yesno (Compact p) "yes"), sink)
    else if String.eqb name "topblock" then (rfc_pi "topblock" (yesno (Topblock p) "yes"), sink)
    else if String.eqb name "comments" then (rfc_pi "comments" (yesno (Comments p) "no"), sink)
    else if String.eqb name "subcompact" then (rfc_pi "subcompact" (yesno (Subcompact p) "no"), sink)
    else if String.eqb name "private" then (rfc_pi "private" (yesno (Private p) ""), sink)
    else if String.eqb name "header" then
      if String.eqb (Header p) piNotSet then ("", sink)
      else (rfc_pi "header" (Header p), sink)
    else if String.eqb name "footer" then
      if String.eqb (Footer p) piNotSet then ("", sink)
      else (rfc_pi "footer" (Footer p), sink)
    else ("", printf sink "unhandled or unknown PI seen: %s" name)
  else ("", sink).

End TitleBlockPI.

Arguments titleBlockTOMLPI piNotSet {Sink} printf sink p name version.

(** ** The title block: the keywords *)

Definition titleBlockTOMLKeyword (out : list byte) (keywords : list string)
    : list byte :=
  write_raw_lines "<keyword>" ("</keyword>" +:+ nl) out keywords.

(** ** Notions used to state the properties *)

(** A byte that is neither [<] nor [>]. *)
Definition no_angle (b : byte) : Prop := b ≠ "<"%byte ∧ b ≠ ">"%byte.

(** A byte that the entity encoder leaves as it is. *)
Definition plain (b : byte) : Prop :=
  b ≠ "<"%byte ∧ b ≠ ">"%byte ∧ b ≠ "&"%byte.

(** One element around a text: the text through the entity encoder, or
    as it is. *)
Definition encoded_element (open close x : string) : list byte :=
  bytes_of open ++ writeEntity [] (bytes_of x) ++ bytes_of close.
Definition raw_element (open close x : string) : list byte :=
  bytes_of open ++ bytes_of x ++ bytes_of close.

(** The pieces put together again with a line feed between two of them
    ([strings.Join] with a line feed), the converse of [Split_nl]. *)
Fixpoint Join_nl (pieces : list string) : string :=
  match pieces with
  | [] => ""
  | [piece] => piece
  | piece :: pieces' => piece +:+ nl +:+ Join_nl pieces'
  end.

(** The number of line feeds of a string. *)
Fixpoint count_LF (s : string) : nat :=
  match s with
  | EmptyString => O
  | String c s' => if Ascii.eqb c LF then S (count_LF s') else count_LF s'
  end.

(** * Properties *)

(** ** Strings and byte slices *)

Lemma byte_eqb_eq (b1 b2 : byte) : Byte.eqb b1 b2 = true ↔ b1 = b2.
Proof. split; [apply Byte.byte_dec_bl | apply Byte.byte_dec_lb]. Qed.

Lemma byte_eqb_neq (b1 b2 : byte) : Byte.eqb b1 b2 = false ↔ b1 ≠ b2.
Proof.
  split; [apply Byte.eqb_false|].
  intros Hne. destruct (Byte.eqb b1 b2) eqn:Heq; [|done].
  by apply byte_eqb_eq in Heq.
Qed.

Lemma string_app_nil (s : string) : "" +:+ s = s.
Proof. reflexivity. Qed.

Lemma string_app_cons (c : ascii) (s1 s2 : string) :
  String c s1 +:+ s2 = String c (s1 +:+ s2).
Proof. reflexivity. Qed.

Ltac string_app := rewrite ?string_app_cons, ?string_app_nil.

Lemma bytes_of_app (s1 s2 : string) :
  bytes_of (s1 +:+ s2) = bytes_of s1 ++ bytes_of s2.
Proof.
  induction s1 as [|c s1 IH]; string_app; [done|].
  change (bytes_of (String c (s1 +:+ s2)))
    with (byte_of_ascii c :: bytes_of (s1 +:+ s2)).
  by rewrite IH.
Qed.

Lemma string_length_app (s1 s2 : string) :
  String.length (s1 +:+ s2) = (String.length s1 + String.length s2)%nat.
Proof. induction s1 as [|c s1 IH]; string_app; simpl; [done|]. by rewrite IH. Qed.

Lemma string_app_assoc (s1 s2 s3 : string) :
  (s1 +:+ s2) +:+ s3 = s1 +:+ s2 +:+ s3.
Proof. induction s1 as [|c s1 IH]; string_app; [done|]. by rewrite IH. Qed.

(** ** Formatting of integers *)

Lemma digit_is_digit (u : N) : is_digit (digit u) = true.
Proof.
  destruct u as [|p]; [done|].
  do 4 (destruct p as [p|p|]; try done).
Qed.

Lemma digit_value_digit (u : N) : (u < 10)%N → digit_value (digit u) = u.
Proof.
  intros Hu. destruct u as [|p]; [done|].
  do 4 (destruct p as [p|p|]; try done; try lia).
Qed.

Lemma fmt_loop_app (fuel : nat) (u : N) (buf : string) :
  fmt_loop fuel u buf = fmt_loop fuel u "" +:+ buf.
Proof.
  revert u buf. induction fuel as [|fuel IH]; intros u buf; simpl; [done|].
  destruct (10 <=? u)%N; [|done].
  rewrite (IH _ (String _ "")), (IH _ (String _ buf)).
  by rewrite string_app_assoc.
Qed.

Lemma all_digits_app (s1 s2 : string) :
  all_digits (s1 +:+ s2) = all_digits s1 && all_digits s2.
Proof.
  induction s1 as [|c s1 IH]; string_app; simpl; [done|].
  by rewrite IH, andb_assoc.
Qed.

Lemma decimal_value_from_app (acc : N) (s1 s2 : string) :
  decimal_value_from acc (s1 +:+ s2) =
  decimal_value_from (decimal_value_from acc s1) s2.
Proof.
  revert acc. induction s1 as [|c s1 IH]; intros acc; string_app; simpl; auto.
Qed.

Lemma fmt_loop_all_digits (fuel : nat) (u : N) :
  all_digits (fmt_loop fuel u "") = true.
Proof.
  revert u. induction fuel as [|fuel IH]; intros u; simpl.
  - by rewrite digit_is_digit.
  - destruct (10 <=? u)%N; simpl; [|by rewrite digit_is_digit].
    rewrite fmt_loop_app, all_digits_app, IH. simpl.
    by rewrite digit_is_digit.
Qed.

(** With enough fuel the loop writes the decimal numeral of [u]. *)
Lemma fmt_loop_value (fuel : nat) (u : N) :
  (u < 2 ^ N.of_nat fuel)%N →
  decimal_value (fmt_loop fuel u "") = u.
Proof.
  unfold decimal_value. revert u.
  induction fuel as [|fuel IH]; intros u Hu.
  - simpl in *. rewrite digit_value_digit; lia.
  - simpl fmt_loop. destruct (N.leb_spec 10 u) as [Hge|Hlt].
    + rewrite fmt_loop_app, decimal_value_from_app, IH.
      * pose proof (N.Div0.mul_div_le u 10) as Hle.
        pose proof (N.mul_succ_div_gt u 10 ltac:(done)) as Hgt.
        simpl. rewrite digit_value_digit; clear IH Hu; lia.
      * apply N.Div0.div_lt_upper_bound.
        rewrite Nat2N.inj_succ, N.pow_succ_r' in Hu. lia.
    + simpl. rewrite digit_value_digit; lia.
Qed.

Lemma fmt_loop_length (fuel : nat) (u : N) (buf : string) :
  (String.length buf < String.length (fmt_loop fuel u buf))%nat.
Proof.
  revert u buf. induction fuel as [|fuel IH]; intros u buf; simpl; [lia|].
  destruct (10 <=? u)%N; simpl; [|lia].
  etrans; [|apply IH]. simpl. lia.
Qed.

Lemma fmt_digits_all_digits (u : N) : all_digits (fmt_digits u) = true.
Proof. apply fmt_loop_all_digits. Qed.

Lemma fmt_digits_value (u : N) : decimal_value (fmt_digits u) = u.
Proof. apply fmt_loop_value. rewrite N2Nat.id. apply N.size_gt. Qed.

(** One digit below ten. *)
Lemma fmt_digits_small (u : N) :
  (u < 10)%N → fmt_digits u = String (digit u) "".
Proof.
  intros Hu. unfold fmt_digits.
  destruct (N.to_nat (N.size u)); simpl; [done|].
  destruct (N.leb_spec 10 u); [lia|done].
Qed.

(** The numeral of [u] has more than [k] digits when [10 ^ k <= u]. *)
Lemma fmt_loop_length_ge (k fuel : nat) (u : N) (buf : string) :
  (10 ^ N.of_nat k <= u)%N → (u < 2 ^ N.of_nat fuel)%N →
  (String.length buf + k < String.length (fmt_loop fuel u buf))%nat.
Proof.
  revert fuel u buf. induction k as [|k IH]; intros fuel u buf Hk Hf.
  - pose proof (fmt_loop_length fuel u buf). lia.
  - rewrite Nat2N.inj_succ, N.pow_succ_r' in Hk.
    assert (1 <= 10 ^ N.of_nat k)%N.
    { pose proof (N.pow_nonzero 10 (N.of_nat k)). lia. }
    destruct fuel as [|fuel]; [simpl in Hf; lia|].
    simpl fmt_loop. destruct (N.leb_spec 10 u); [|lia].
    rewrite Nat2N.inj_succ, N.pow_succ_r' in Hf.
    specialize (IH fuel (u / 10)%N (String (digit (u - u / 10 * 10)) buf)).
    simpl String.length in IH.
    assert (10 ^ N.of_nat k <= u / 10)%N.
    { apply N.div_le_lower_bound; lia. }
    assert (u / 10 < 2 ^ N.of_nat fuel)%N.
    { apply N.Div0.div_lt_upper_bound. lia. }
    specialize (IH ltac:(done) ltac:(done)). lia.
Qed.

Lemma fmt_digits_length_ge (k : nat) (u : N) :
  (10 ^ N.of_nat k <= u)%N → (k < String.length (fmt_digits u))%nat.
Proof.
  intros Hk. apply (fmt_loop_length_ge k _ u "" Hk).
  rewrite N2Nat.id. apply N.size_gt.
Qed.

Lemma Itoa_nonneg (v : Z) : 0 <= v → Itoa v = fmt_digits (Z.to_N v).
Proof.
  intros Hv. unfold Itoa. destruct (Z.ltb_spec v 0); [lia|].
  by destruct v.
Qed.

(** [Itoa] writes the decimal numeral of a number that is not negative. *)
Lemma Itoa_numeral (v : Z) :
  0 <= v →
  all_digits (Itoa v) = true ∧ Z.of_N (decimal_value (Itoa v)) = v.
Proof.
  intros Hv. rewrite Itoa_nonneg by done.
  rewrite fmt_digits_all_digits, fmt_digits_value. split; [done|lia].
Qed.

(** [%02d] pads the numeral of a number that is not negative to two
    digits and never cuts it. *)
Lemma Sprintf_02d_nonneg (v : Z) :
  0 <= v → Sprintf_02d v = pad_two (Itoa v).
Proof.
  intros Hv. rewrite Itoa_nonneg by done. unfold Sprintf_02d, pad_two.
  destruct (Z.ltb_spec v 0); [lia|].
  replace (Z.abs_N v) with (Z.to_N v) by (by destruct v).
  pose proof (fmt_loop_length (N.to_nat (N.size (Z.to_N v))) (Z.to_N v) "") as Hlen.
  fold (fmt_digits (Z.to_N v)) in Hlen. simpl in Hlen.
  destruct (String.length (fmt_digits (Z.to_N v))) as [|[|n]];
    [lia|done|done].
Qed.

Lemma Sprintf_02d_ge_10 (v : Z) : 10 <= v → Sprintf_02d v = Itoa v.
Proof.
  intros Hv. rewrite Sprintf_02d_nonneg by lia. unfold pad_two.
  rewrite Itoa_nonneg by lia.
  pose proof (fmt_digits_length_ge 1 (Z.to_N v) ltac:(simpl; lia)).
  destruct (Nat.ltb_spec (String.length (fmt_digits (Z.to_N v))) 2); [lia|done].
Qed.

(** ** The citation resolver *)

Lemma referenceFile_short (g : urls) (c : citation) :
  (length (link c) < 4)%nat → referenceFile g c = "".
Proof.
  intros Hlen. unfold referenceFile.
  by destruct (Nat.ltb_spec (length (link c)) 4); [|lia].
Qed.

Lemma referenceFile_other (g : urls) (c : citation) :
  string_of (take 3 (link c)) ≠ "RFC" →
  string_of (take 3 (link c)) ≠ "I-D" →
  referenceFile g c = "".
Proof.
  intros Hrfc Hid. unfold referenceFile.
  apply String.eqb_neq in Hrfc, Hid. rewrite Hrfc, Hid.
  by destruct (_ <? _)%nat.
Qed.

Lemma referenceFile_RFC (g : urls) (c : citation) :
  (4 ≤ length (link c))%nat →
  string_of (take 3 (link c)) = "RFC" →
  referenceFile g c =
  CitationsRFC g +:+ "reference.RFC." +:+ string_of (drop 3 (link c)) +:+ ".xml".
Proof.
  intros Hlen Hkind. unfold referenceFile. rewrite Hkind.
  by destruct (Nat.ltb_spec (length (link c)) 4); [lia|].
Qed.

Lemma referenceFile_ID_latest (g : urls) (c : citation) :
  (4 ≤ length (link c))%nat →
  string_of (take 3 (link c)) = "I-D" →
  seq c = -1 →
  referenceFile g c =
  CitationsID g +:+ "reference.I-D." +:+ string_of (drop 4 (link c)) +:+ ".xml".
Proof.
  intros Hlen Hkind Hseq. unfold referenceFile. rewrite Hkind, Hseq.
  by destruct (Nat.ltb_spec (length (link c)) 4); [lia|].
Qed.

Lemma referenceFile_ID_seq (g : urls) (c : citation) :
  (4 ≤ length (link c))%nat →
  string_of (take 3 (link c)) = "I-D" →
  seq c ≠ -1 →
  referenceFile g c =
  CitationsID g +:+ "reference.I-D.draft-" +:+ string_of (drop 4 (link c)) +:+
  "-" +:+ Sprintf_02d (seq c) +:+ ".xml".
Proof.
  intros Hlen Hkind Hseq. unfold referenceFile. rewrite Hkind.
  destruct (Nat.ltb_spec (length (link c)) 4); [lia|].
  destruct (Z.eqb_spec (seq c) (-1)); [done|].
  simpl. by rewrite string_app_assoc.
Qed.

(** C1. [referenceFile] returns the empty string for a link of fewer than
    four bytes or one whose first three bytes are neither RFC nor I-D;
    for RFC, the RFC URL, [reference.RFC.], the bytes of the link from
    position 3 and [.xml]; for I-D without a sequence number (-1), the
    I-D URL, [reference.I-D.], the bytes of the link from position 4 and
    [.xml]; for I-D with a sequence number (which is not negative), the
    I-D URL, [reference.I-D.draft-], the bytes of the link from position
    4, a dash, the decimal numeral of the sequence number padded with
    zeros to two digits or more, and [.xml]. The result depends on the
    link, the sequence number and the two URLs only. *)
Theorem referenceFile_spec (g : urls) (c : citation) :
  ((length (link c) < 4)%nat ∨
   (string_of (take 3 (link c)) ≠ "RFC" ∧ string_of (take 3 (link c)) ≠ "I-D") →
   referenceFile g c = "") ∧
  ((4 ≤ length (link c))%nat → string_of (take 3 (link c)) = "RFC" →
   referenceFile g c =
   CitationsRFC g +:+ "reference.RFC." +:+ string_of (drop 3 (link c)) +:+ ".xml") ∧
  ((4 ≤ length (link c))%nat → string_of (take 3 (link c)) = "I-D" →
   seq c = -1 →
   referenceFile g c =
   CitationsID g +:+ "reference.I-D." +:+ string_of (drop 4 (link c)) +:+ ".xml") ∧
  ((4 ≤ length (link c))%nat → string_of (take 3 (link c)) = "I-D" →
   0 <= seq c →
   referenceFile g c =
   CitationsID g +:+ "reference.I-D.draft-" +:+ string_of (drop 4 (link c)) +:+
   "-" +:+ pad_two (Itoa (seq c)) +:+ ".xml"
   ∧ all_digits (Itoa (seq c)) = true
   ∧ Z.of_N (decimal_value (Itoa (seq c))) = seq c) ∧
  ((4 ≤ length (link c))%nat → string_of (take 3 (link c)) = "I-D" →
   seq c ≠ -1 →
   referenceFile g c =
   CitationsID g +:+ "reference.I-D.draft-" +:+ string_of (drop 4 (link c)) +:+
   "-" +:+ Sprintf_02d (seq c) +:+ ".xml") ∧
  (∀ c' : citation, link c' = link c → seq c' = seq c →
   referenceFile g c' = referenceFile g c).
Proof.
  split; [|split; [|split; [|split; [|split]]]]; [| | | |apply referenceFile_ID_seq|];
    repeat split.
  - intros [Hlen|[Hrfc Hid]];
      [by apply referenceFile_short | by apply referenceFile_other].
  - apply referenceFile_RFC.
  - apply referenceFile_ID_latest.
  - rewrite <- Sprintf_02d_nonneg by done.
    apply referenceFile_ID_seq; [done|done|lia].
  - by apply Itoa_numeral.
  - by apply Itoa_numeral.
  - intros c' Hlink Hseq. unfold referenceFile. by rewrite Hlink, Hseq.
Qed.

Example referenceFile_rfc :
  referenceFile current_urls (Citation (bytes_of "RFC2119") "n" (-1)) =
  "http://xml2rfc.ietf.org/public/rfc/bibxml/reference.RFC.2119.xml".
Proof. reflexivity. Qed.

Example referenceFile_id_seq :
  referenceFile current_urls (Citation (bytes_of "I-D.ietf-dane-openpgpkey") "i" 2) =
  "http://xml2rfc.ietf.org/public/rfc/bibxml3/reference.I-D.draft-ietf-dane-openpgpkey-02.xml".
Proof. reflexivity. Qed.

Example referenceFile_id_latest :
  referenceFile current_urls (Citation (bytes_of "I-D.ietf-dane-openpgpkey") "i" (-1)) =
  "http://xml2rfc.ietf.org/public/rfc/bibxml3/reference.I-D.ietf-dane-openpgpkey.xml".
Proof. reflexivity. Qed.

Example referenceFile_too_short :
  referenceFile current_urls (Citation (bytes_of "XY") "i" (-1)) = "" ∧
  referenceFile current_urls (Citation (bytes_of "RFC") "i" (-1)) = "" ∧
  referenceFile current_urls (Citation (bytes_of "STD13") "i" (-1)) = "".
Proof. repeat split; reflexivity. Qed.

Example Sprintf_02d_examples :
  Sprintf_02d 0 = "00" ∧ Sprintf_02d 7 = "07" ∧ Sprintf_02d 42 = "42" ∧
  Sprintf_02d 123 = "123" ∧ Sprintf_02d (-5) = "-5" ∧ Sprintf_02d (-12) = "-12" ∧
  Itoa 1997 = "1997" ∧ Itoa (-3) = "-3" ∧ Itoa 0 = "0".
Proof. repeat split; reflexivity. Qed.

(** C4. For an I-D citation with a sequence number of three digits or
    more, the segment of the sequence number in the result of
    [referenceFile] is a dash and the whole decimal numeral of the
    number: three digits or more whose value is the number, none cut
    off. *)
Theorem referenceFile_seq_not_truncated (g : urls) (c : citation) :
  (4 ≤ length (link c))%nat →
  string_of (take 3 (link c)) = "I-D" →
  100 <= seq c →
  referenceFile g c =
  CitationsID g +:+ referenceID +:+ string_of (drop 4 (link c)) +:+
  "-" +:+ Itoa (seq c) +:+ ext
  ∧ all_digits (Itoa (seq c)) = true
  ∧ Z.of_N (decimal_value (Itoa (seq c))) = seq c
  ∧ (3 ≤ String.length (Itoa (seq c)))%nat.
Proof.
  intros Hlen Hkind Hseq. split; [|split; [|split]].
  - rewrite <- Sprintf_02d_ge_10 by lia.
    apply referenceFile_ID_seq; [done|done|lia].
  - apply Itoa_numeral. lia.
  - apply Itoa_numeral. lia.
  - rewrite Itoa_nonneg by lia.
    apply (fmt_digits_length_ge 2). simpl. lia.
Qed.

Lemma referenceFile_seq_not_truncated_witness :
  referenceFile current_urls (Citation (bytes_of "I-D.x") "i" 123) =
  "http://xml2rfc.ietf.org/public/rfc/bibxml3/" +:+ referenceID +:+ "x" +:+
  "-" +:+ "123" +:+ ext
  ∧ all_digits "123" = true
  ∧ Z.of_N (decimal_value "123") = 123
  ∧ (3 ≤ String.length "123")%nat.
Proof.
  apply (referenceFile_seq_not_truncated current_urls
           (Citation (bytes_of "I-D.x") "i" 123)).
  - simpl. lia.
  - reflexivity.
  - simpl. lia.
Defined.

Example referenceFile_seq_123 :
  referenceFile current_urls (Citation (bytes_of "I-D.x") "i" 123) =
  "http://xml2rfc.ietf.org/public/rfc/bibxml3/reference.I-D.draft-x-123.xml".
Proof. reflexivity. Qed.

(** ** The entity encoder *)

Lemma entityConvert_lookup (b : byte) :
  entityConvert !! b =
  if Byte.eqb b "<" then Some (bytes_of "&lt;")
  else if Byte.eqb b ">" then Some (bytes_of "&gt;")
  else if Byte.eqb b "&" then Some (bytes_of "&amp;")
  else None.
Proof. destruct b; vm_compute; reflexivity. Qed.

Lemma entity_length (b : byte) : (1 ≤ length (entity b))%nat.
Proof.
  unfold entity.
  destruct (Byte.eqb b "<"); [simpl; lia|].
  destruct (Byte.eqb b ">"); [simpl; lia|].
  destruct (Byte.eqb b "&"); simpl; lia.
Qed.

(** The loop appends the replacement of each byte, from the left. *)
Lemma writeEntity_flat_map (out text : list byte) :
  writeEntity out text = out ++ flat_map entity text.
Proof.
  revert out. induction text as [|b text IH]; intros out; simpl.
  - by rewrite app_nil_r.
  - rewrite entityConvert_lookup. unfold entity, Write, WriteByte.
    destruct (Byte.eqb b "<"); [by rewrite IH, <- app_assoc|].
    destruct (Byte.eqb b ">"); [by rewrite IH, <- app_assoc|].
    destruct (Byte.eqb b "&"); by rewrite IH, <- app_assoc.
Qed.

Lemma flat_map_entity_length (text : list byte) :
  (length text ≤ length (flat_map entity text))%nat.
Proof.
  induction text as [|b text IH]; simpl; [lia|].
  rewrite length_app. pose proof (entity_length b). lia.
Qed.

(** C6. [writeEntity] appends to the buffer the input with each [<]
    replaced by [&lt;], each [>] by [&gt;], each [&] by [&amp;] and every
    other byte as it is, in one pass from the left (an [&] that begins an
    entity in the input is replaced like any other); it is total, and
    what it appends is at least as long as the input. *)
Theorem writeEntity_spec (out text : list byte) :
  writeEntity out text = out ++ flat_map entity text
  ∧ entity "<" = bytes_of "&lt;"
  ∧ entity ">" = bytes_of "&gt;"
  ∧ entity "&" = bytes_of "&amp;"
  ∧ (∀ b : byte, b ≠ "<"%byte → b ≠ ">"%byte → b ≠ "&"%byte → entity b = [b])
  ∧ (length text ≤ length (flat_map entity text))%nat
  ∧ (length out + length text ≤ length (writeEntity out text))%nat
  ∧ writeEntity [] (bytes_of "&lt;") = bytes_of "&amp;lt;".
Proof.
  pose proof (flat_map_entity_length text) as Hlen.
  repeat split; try done.
  - apply writeEntity_flat_map.
  - intros b H1 H2 H3. unfold entity.
    by rewrite !(proj2 (byte_eqb_neq _ _)).
  - rewrite writeEntity_flat_map, length_app. lia.
Qed.

Example writeEntity_organization :
  writeEntity [] (bytes_of "A & B <C>") = bytes_of "A &amp; B &lt;C&gt;".
Proof. reflexivity. Qed.

(** ** The markup stripper *)

Lemma writeSanitizeXML_loop_app (inTag : bool) (out s : list byte) :
  writeSanitizeXML_loop inTag out s = out ++ writeSanitizeXML_loop inTag [] s.
Proof.
  revert inTag out. induction s as [|b s IH]; intros inTag out; simpl.
  - by rewrite app_nil_r.
  - destruct (Byte.eqb b "<"); [done|].
    destruct (Byte.eqb b ">"); [done|].
    destruct inTag; simpl; [done|].
    unfold WriteByte. rewrite (IH _ (out ++ [b])), (IH _ ([] ++ [b])).
    by rewrite <- app_assoc.
Qed.

(** What the loop keeps is what lies outside the tag spans, less the
    [>] that lie there. *)
Lemma writeSanitizeXML_loop_strip (inTag : bool) (s : list byte) :
  writeSanitizeXML_loop inTag [] s = List.filter not_gt (strip_spans inTag s).
Proof.
  revert inTag. induction s as [|b s IH]; intros inTag; [done|].
  simpl.
  destruct (Byte.eqb b "<") eqn:Hlt.
  { apply byte_eqb_eq in Hlt as ->. destruct inTag; simpl; apply IH. }
  destruct (Byte.eqb b ">") eqn:Hgt; destruct inTag; simpl;
    unfold not_gt at 1; rewrite ?Hgt; simpl; try apply IH.
  rewrite writeSanitizeXML_loop_app. simpl. by rewrite IH.
Qed.

(** The invariant of the loop of [sanitizeXML]: before the turn for index
    [i], the slice is the bytes kept so far ([pre], of length [j]), then
    bytes already read that no longer matter ([gap]), then the bytes
    still to read ([rest]), which the stores have not touched. *)
Lemma sanitizeXML_loop_inv (rest : list byte) :
  ∀ (pre gap : list byte) (inTag : bool) (i j : nat) (s : list byte),
    j = length pre →
    i = (length pre + length gap)%nat →
    s = pre ++ gap ++ rest →
    ∃ tail : list byte,
      sanitizeXML_loop (length rest) i j inTag s =
      Some (pre ++ writeSanitizeXML_loop inTag [] rest ++ tail,
            (j + length (writeSanitizeXML_loop inTag [] rest))%nat).
Proof.
  induction rest as [|b rest IH]; intros pre gap inTag i j s Hj Hi Hs.
  - exists gap. subst. simpl. by rewrite app_nil_r, Nat.add_0_r.
  - assert (s !! i = Some b) as Hb.
    { subst s. rewrite app_assoc. apply list_lookup_middle.
      rewrite length_app. lia. }
    simpl sanitizeXML_loop. rewrite Hb. simpl.
    assert (s = pre ++ (gap ++ [b]) ++ rest) as Hs'.
    { subst s. by rewrite <- (app_assoc gap). }
    assert (S i = (length pre + length (gap ++ [b]))%nat) as Hi'.
    { rewrite length_app. simpl. lia. }
    destruct (Byte.eqb b "<"); [by apply (IH pre (gap ++ [b]))|].
    destruct (Byte.eqb b ">"); [by apply (IH pre (gap ++ [b]))|].
    destruct inTag; simpl; [by apply (IH pre (gap ++ [b]))|].
    destruct (gap ++ [b]) as [|x gap'] eqn:Hgap.
    { by destruct gap. }
    unfold store. rewrite decide_True.
    2:{ subst s j. rewrite !length_app. simpl. lia. }
    simpl.
    destruct (IH (pre ++ [b]) gap' false (S i) (S j)
                (<[j:=b]> s)) as [tail Htail].
    + rewrite length_app. simpl. lia.
    + rewrite length_app. simpl in *. lia.
    + rewrite Hs'. subst j. simpl.
      replace (length pre) with (length pre + 0)%nat by lia.
      rewrite insert_app_r. simpl. by rewrite <- app_assoc.
    + exists tail. rewrite Htail. unfold WriteByte. simpl.
      rewrite (writeSanitizeXML_loop_app false [b]).
      rewrite <- !app_assoc. simpl. f_equal. f_equal. lia.
Qed.

(** [sanitizeXML] returns, and it returns what the loop of
    [writeSanitizeXML] keeps. *)
Lemma sanitizeXML_total (s : list byte) :
  sanitizeXML s = Some (writeSanitizeXML_loop false [] s).
Proof.
  unfold sanitizeXML.
  destruct (sanitizeXML_loop_inv s [] [] false 0 0 s) as [tail ->]; try done.
  simpl. unfold slice_to. rewrite decide_True.
  - by rewrite take_app_length.
  - rewrite length_app. lia.
Qed.

(** The result holds neither [<] nor [>]. *)
Lemma writeSanitizeXML_loop_plain (inTag : bool) (s : list byte) :
  Forall (λ b, Byte.eqb b "<" = false ∧ Byte.eqb b ">" = false)
         (writeSanitizeXML_loop inTag [] s).
Proof.
  revert inTag. induction s as [|b s IH]; intros inTag; simpl; [constructor|].
  destruct (Byte.eqb b "<") eqn:Hlt; [apply IH|].
  destruct (Byte.eqb b ">") eqn:Hgt; [apply IH|].
  destruct inTag; simpl; [apply IH|].
  rewrite writeSanitizeXML_loop_app. by constructor.
Qed.

(** Outside a tag, a text with neither [<] nor [>] is kept whole. *)
Lemma writeSanitizeXML_loop_id (s : list byte) :
  Forall (λ b, Byte.eqb b "<" = false ∧ Byte.eqb b ">" = false) s →
  writeSanitizeXML_loop false [] s = s.
Proof.
  induction 1 as [|b s [Hlt Hgt] _ IH]; simpl; [done|].
  rewrite Hlt, Hgt. simpl. rewrite writeSanitizeXML_loop_app. simpl.
  by rewrite IH.
Qed.

(** C2, as the specification words it, fails: a [>] that closes no tag is
    outside every tag span, and [sanitizeXML] drops it. *)
Lemma sanitizeXML_stray_gt_dropped :
  sanitizeXML (bytes_of "a>b") ≠ Some (strip_spans false (bytes_of "a>b"))
  ∧ strip_spans false (bytes_of "a>b") = bytes_of "a>b"
  ∧ sanitizeXML (bytes_of "a>b") = Some (bytes_of "ab").
Proof. vm_compute. repeat split. discriminate. Qed.

(** C2, amended. [sanitizeXML] returns its input without the tag spans
    (each from a [<] to the next [>], both included, the last one to the
    end of the input when it is not closed) and without the [>] that lie
    outside the spans; the other bytes outside the spans are kept as they
    are and in order. *)
Theorem sanitizeXML_spec (s : list byte) :
  sanitizeXML s = Some (List.filter not_gt (strip_spans false s)).
Proof. by rewrite sanitizeXML_total, writeSanitizeXML_loop_strip. Qed.

(** C7. [sanitizeXML] returns a slice, and [writeSanitizeXML] appends to
    its buffer the bytes of that slice. *)
Theorem sanitizeXML_writeSanitizeXML (out s : list byte) :
  ∃ r : list byte,
    sanitizeXML s = Some r ∧ writeSanitizeXML out s = out ++ r.
Proof.
  exists (writeSanitizeXML_loop false [] s). split.
  - apply sanitizeXML_total.
  - apply writeSanitizeXML_loop_app.
Qed.

(** C8. [sanitizeXML] is idempotent: it returns, and applied to its
    result it returns that result. *)
Theorem sanitizeXML_idempotent (s : list byte) :
  ∃ r : list byte, sanitizeXML s = Some r ∧ sanitizeXML r = Some r.
Proof.
  exists (writeSanitizeXML_loop false [] s). split.
  - apply sanitizeXML_total.
  - rewrite sanitizeXML_total. f_equal.
    apply writeSanitizeXML_loop_id, writeSanitizeXML_loop_plain.
Qed.

(** The slice after the loop: the two bytes kept are at its head, and the
    bytes behind them are left as they were. *)
Example sanitizeXML_in_place :
  sanitizeXML_loop 7 0 0 false (bytes_of "a<b>c<d") =
  Some (bytes_of "acb>c<d", 2%nat).
Proof. reflexivity. Qed.

Example sanitizeXML_examples :
  sanitizeXML (bytes_of "a<b>c<d") = Some (bytes_of "ac") ∧
  sanitizeXML (bytes_of "x <em>y</em> z") = Some (bytes_of "x y z") ∧
  sanitizeXML (bytes_of "<a<b>c") = Some (bytes_of "c") ∧
  writeSanitizeXML (bytes_of "out:") (bytes_of "a<b>c<d") = bytes_of "out:ac".
Proof. repeat split; reflexivity. Qed.

(** ** The citation catalog *)

(** [String.le] compares byte by byte from the left: the first bytes that
    differ decide, and a proper prefix comes first. *)
Lemma String_le_bytewise :
  (∀ t : string, String.le "" t) ∧
  (∀ (a : ascii) (s : string), ¬ String.le (String a s) "") ∧
  (∀ (a b : ascii) (s t : string),
     String.le (String a s) (String b t) ↔
     (N_of_ascii a < N_of_ascii b)%N ∨ (a = b ∧ String.le s t)).
Proof.
  unfold String.le, String.leb. split; [|split].
  - by intros [|??].
  - intros a s. simpl. tauto.
  - intros a b s t. simpl. unfold Ascii.compare.
    destruct (N.compare_spec (N_of_ascii a) (N_of_ascii b)) as [Heq|Hlt|Hgt].
    + assert (a = b) as <-.
      { by rewrite <- (ascii_N_embedding a), Heq, ascii_N_embedding. }
      split; [by right|]. intros [?|[_ ?]]; [lia|done].
    + split; [by left|done].
    + split; [done|]. intros [?|[-> _]]; lia.
Qed.

(** The sorted arrangement of a list of strings is unique, so every
    sorting algorithm returns what [sort_Strings] returns. *)
Lemma sort_Strings_unique (keys sorted : list string) :
  Sorted String.le sorted → sorted ≡ₚ keys → sorted = sort_Strings keys.
Proof.
  intros Hsorted Hperm. apply (Sorted_unique String.le); [done| |].
  - apply Sorted_merge_sort, _.
  - unfold sort_Strings. by rewrite merge_sort_Permutation.
Qed.

Lemma sort_Strings_Permutation (keys1 keys2 : list string) :
  keys1 ≡ₚ keys2 → sort_Strings keys1 = sort_Strings keys2.
Proof.
  intros Hperm. apply sort_Strings_unique.
  - apply Sorted_merge_sort, _.
  - unfold sort_Strings. by rewrite merge_sort_Permutation.
Qed.

Lemma count_step_foldl (entries : list (string * citation)) :
  ∀ (refi refn : Z) (keys : list string),
    foldl count_step (refi, refn, keys) entries =
    (refi + Z.of_nat (length (filter (λ kc, informative kc.2) entries)),
     refn + Z.of_nat (length (filter (λ kc, normative kc.2) entries)),
     keys ++ entries.*1).
Proof.
  induction entries as [|[k c] entries IH]; intros refi refn keys.
  - simpl. by rewrite !Z.add_0_r, app_nil_r.
  - simpl foldl. rewrite IH, !filter_cons. simpl.
    rewrite <- app_assoc. simpl.
    unfold informative, normative.
    destruct (Byte.eqb (typ c) "i") eqn:Hi;
      [apply byte_eqb_eq in Hi|apply byte_eqb_neq in Hi];
    (destruct (Byte.eqb (typ c) "n") eqn:Hn;
      [apply byte_eqb_eq in Hn|apply byte_eqb_neq in Hn]);
    repeat case_decide; try congruence; simpl length;
      (apply pair_equal_spec; split;
       [apply pair_equal_spec; split; lia | reflexivity]).
Qed.

Lemma countCitationsAndSort_range_eq (entries : list (string * citation)) :
  countCitationsAndSort_range entries =
  (Z.of_nat (length (filter (λ kc, informative kc.2) entries)),
   Z.of_nat (length (filter (λ kc, normative kc.2) entries)),
   sort_Strings entries.*1).
Proof. unfold countCitationsAndSort_range. by rewrite count_step_foldl. Qed.

(** The order of iteration does not show in the result. *)
Lemma countCitationsAndSort_range_Permutation
    (entries1 entries2 : list (string * citation)) :
  entries1 ≡ₚ entries2 →
  countCitationsAndSort_range entries1 = countCitationsAndSort_range entries2.
Proof.
  intros Hperm. rewrite !countCitationsAndSort_range_eq.
  by rewrite (sort_Strings_Permutation entries1.*1 entries2.*1),
    Hperm by (by rewrite Hperm).
Qed.

Lemma map_filter_size (P : string * citation → Prop) `{!∀ kc, Decision (P kc)}
    (m : gmap string citation) :
  size (filter P m) = length (filter P (map_to_list m)).
Proof.
  rewrite map_filter_alt. apply map_size_list_to_map.
  apply NoDup_fmap_fst.
  - intros k c1 c2 [_ H1]%list_elem_of_filter [_ H2]%list_elem_of_filter.
    apply elem_of_map_to_list in H1, H2. congruence.
  - apply NoDup_filter, NoDup_map_to_list.
Qed.

(** Each citation has one class at most. *)
Lemma class_counts (l : list (string * citation)) :
  (length (filter (λ kc, informative kc.2) l) +
   length (filter (λ kc, normative kc.2) l) ≤ length l)%nat ∧
  ((length (filter (λ kc, informative kc.2) l) +
    length (filter (λ kc, normative kc.2) l) = length l)%nat ↔
   Forall (λ kc, informative kc.2 ∨ normative kc.2) l).
Proof.
  induction l as [|[k c] l [IHle IHeq]]; [by split|].
  rewrite !filter_cons, Forall_cons. simpl.
  unfold informative, normative in *.
  repeat case_decide; simpl length; try congruence;
    (split; [lia|]); rewrite <- IHeq; split;
    try (intros [[?|?] ?]); try done; try lia; intros ?; split; try lia; auto.
Qed.

Lemma countCitationsAndSort_eq (m : gmap string citation) :
  countCitationsAndSort m =
  (Z.of_nat (size (filter (λ kc, informative kc.2) m)),
   Z.of_nat (size (filter (λ kc, normative kc.2) m)),
   sort_Strings (map_to_list m).*1).
Proof.
  unfold countCitationsAndSort.
  by rewrite countCitationsAndSort_range_eq, !map_filter_size.
Qed.

Lemma elem_of_sort_Strings (k : string) (keys : list string) :
  k ∈ sort_Strings keys ↔ k ∈ keys.
Proof. unfold sort_Strings. by rewrite merge_sort_Permutation. Qed.

Lemma elem_of_map_keys (m : gmap string citation) (k : string) :
  k ∈ (map_to_list m).*1 ↔ is_Some (m !! k).
Proof.
  rewrite list_elem_of_fmap. split.
  - intros [[k' c] [-> Hkc]]. apply elem_of_map_to_list in Hkc. by exists c.
  - intros [c Hc]. exists (k, c). split; [done|]. by apply elem_of_map_to_list.
Qed.

(** C5. [countCitationsAndSort] returns, whatever the order in which the
    map is walked, the number of informative citations, the number of
    normative citations and the keys of the map in ascending byte-wise
    order: as many keys as the map has entries, the key of a citation
    without class among them though it adds to neither count; the sum of
    the two counts is at most the size of the map, and equal to it
    exactly when every citation has a class. *)
Theorem countCitationsAndSort_spec (m : gmap string citation) :
  ∃ (refi refn : Z) (keys : list string),
    countCitationsAndSort m = (refi, refn, keys)
    ∧ (∀ entries : list (string * citation),
         entries ≡ₚ map_to_list m →
         countCitationsAndSort_range entries = (refi, refn, keys))
    ∧ refi = Z.of_nat (size (filter (λ kc, informative kc.2) m))
    ∧ refn = Z.of_nat (size (filter (λ kc, normative kc.2) m))
    ∧ Sorted String.le keys
    ∧ keys ≡ₚ (map_to_list m).*1
    ∧ (∀ k : string, k ∈ keys ↔ is_Some (m !! k))
    ∧ length keys = size m
    ∧ refi + refn <= Z.of_nat (size m)
    ∧ (refi + refn = Z.of_nat (size m) ↔
       ∀ (k : string) (c : citation),
         m !! k = Some c → informative c ∨ normative c)
    ∧ (∀ (k : string) (c : citation),
         m !! k = None → ¬ informative c → ¬ normative c →
         ∃ keys' : list string,
           countCitationsAndSort (<[k:=c]> m) = (refi, refn, keys')
           ∧ k ∈ keys').
Proof.
  eexists _, _, _. split; [apply countCitationsAndSort_eq|].
  split; [|split; [done|split; [done|]]].
  { intros entries Hperm.
    rewrite (countCitationsAndSort_range_Permutation _ _ Hperm).
    apply countCitationsAndSort_eq. }
  destruct (class_counts (map_to_list m)) as [Hle Heq].
  rewrite <- !map_filter_size, length_map_to_list in Hle, Heq.
  repeat split.
  - apply Sorted_merge_sort, _.
  - apply merge_sort_Permutation.
  - by intros ?%elem_of_sort_Strings%elem_of_map_keys.
  - by intros ?%elem_of_map_keys%elem_of_sort_Strings.
  - unfold sort_Strings.
    by rewrite merge_sort_Permutation, length_fmap, length_map_to_list.
  - lia.
  - intros Hsum k c Hkc.
    assert (Forall (λ kc : string * citation,
                      informative kc.2 ∨ normative kc.2) (map_to_list m))
      as Hall by (apply Heq; lia).
    rewrite Forall_forall in Hall.
    by apply (Hall (k, c)), elem_of_map_to_list.
  - intros Hall.
    assert (Forall (λ kc : string * citation,
                      informative kc.2 ∨ normative kc.2) (map_to_list m))
      as Hall'.
    { apply Forall_forall. intros [k c] Hkc%elem_of_map_to_list.
      by apply (Hall k c). }
    apply Heq in Hall'. lia.
  - intros k c Hk Hi Hn. eexists. split.
    + rewrite countCitationsAndSort_eq.
      by rewrite !map_filter_insert_not' by (done || by rewrite Hk).
    + apply elem_of_sort_Strings, elem_of_map_keys.
      rewrite lookup_insert_eq. by exists c.
Qed.

Example countCitationsAndSort_example :
  countCitationsAndSort
    (<["RFC2119" := Citation (bytes_of "RFC2119") "n" (-1)]>
       (<["libes" := Citation (bytes_of "libes") "i" (-1)]>
          (<["I-D.x" := Citation (bytes_of "I-D.x") "x" 2]> ∅))) =
  (1, 1, ["I-D.x"; "RFC2119"; "libes"]).
Proof. vm_compute. reflexivity. Qed.

(** ** The title block: the date *)


Lemma daysIn_range (month year : Z) : 28 <= daysIn month year <= 31.
Proof.
  unfold daysIn. destruct (month =? 2); [destruct (isLeap year); lia|].
  destruct (_ || _); lia.
Qed.

Lemma valid_civil_spec (c : civil) :
  Is_true (valid_civil c) ↔
  1 <= civil_month c <= 12 ∧
  1 <= civil_day c <= daysIn (civil_month c) (civil_year c).
Proof.
  unfold valid_civil.
  rewrite !andb_True, !Is_true_true, !Z.leb_le. tauto.
Qed.

Lemma next_day_valid (c : civil) :
  Is_true (valid_civil c) → Is_true (valid_civil (next_day c)).
Proof.
  rewrite !valid_civil_spec. destruct c as [y m d]. simpl.
  intros [Hm Hd]. destruct (Z.ltb_spec d (daysIn m y)); simpl; [lia|].
  destruct (Z.ltb_spec m 12); simpl.
  - pose proof (daysIn_range (m + 1) y). lia.
  - pose proof (daysIn_range 1 (y + 1)). lia.
Qed.

Lemma prev_day_valid (c : civil) :
  Is_true (valid_civil c) → Is_true (valid_civil (prev_day c)).
Proof.
  rewrite !valid_civil_spec. destruct c as [y m d]. simpl.
  intros [Hm Hd]. destruct (Z.ltb_spec 1 d); simpl; [lia|].
  destruct (Z.ltb_spec 1 m); simpl.
  - pose proof (daysIn_range (m - 1) y). lia.
  - change (daysIn 12 (y - 1)) with 31. lia.
Qed.

Lemma iter_valid (f : civil → civil) (n : nat) (c : civil) :
  (∀ c', Is_true (valid_civil c') → Is_true (valid_civil (f c'))) →
  Is_true (valid_civil c) → Is_true (valid_civil (Nat.iter n f c)).
Proof. intros Hf Hc. induction n as [|n IH]; simpl; auto. Qed.

(** [time.Date] gives a day of the calendar for every year, month and
    day. *)
Lemma Date_civil_valid (year month day : Z) :
  Is_true (valid_civil (Date_civil year month day)).
Proof.
  unfold Date_civil.
  assert (Is_true (valid_civil
            (Civil (year + (month - 1) / 12) ((month - 1) mod 12 + 1) 1)))
    as Hfirst.
  { apply valid_civil_spec. simpl.
    pose proof (Z.mod_pos_bound (month - 1) 12 ltac:(lia)).
    pose proof (daysIn_range ((month - 1) mod 12 + 1)
                  (year + (month - 1) / 12)).
    lia. }
  destruct (1 <=? day);
    apply iter_valid; auto using next_day_valid, prev_day_valid.
Qed.

Lemma Time_of_civil_Date_civil (year month day : Z) :
  civil_of (Date year month day) = Date_civil year month day.
Proof.
  unfold Date, Time_of_civil. case_decide as Hvalid; [done|].
  destruct Hvalid. apply Date_civil_valid.
Qed.




Example titleBlockTOMLDate_full :
  string_of (titleBlockTOMLDate [] (Date 1997 4 1)) =
  "<date year=" +:+ dq +:+ "1997" +:+ dq +:+ " month=" +:+ dq +:+ "April" +:+ dq +:+
  " day=" +:+ dq +:+ "1" +:+ dq +:+ "/>" +:+ nl +:+ nl.
Proof. reflexivity. Qed.

Example Date_normalized :
  civil_of (Date 1997 10 32) = Civil 1997 11 1 ∧
  civil_of (Date 2000 2 30) = Civil 2000 3 1 ∧
  civil_of (Date 1900 2 29) = Civil 1900 3 1 ∧
  civil_of (Date 1997 13 1) = Civil 1998 1 1 ∧
  civil_of (Date 1997 0 1) = Civil 1996 12 1 ∧
  civil_of (Date 1997 1 0) = Civil 1996 12 31 ∧
  civil_of (Date 1997 3 (-1)) = Civil 1997 2 27.
Proof. repeat split; reflexivity. Qed.

(** ** The title block: the process instructions *)

Lemma string_eqb_neq (s1 s2 : string) : s1 ≠ s2 → String.eqb s1 s2 = false.
Proof. apply String.eqb_neq. Qed.

(** C9. [titleBlockTOMLPI] returns the empty string, and reports nothing,
    for every name when the version is 3; for version 2 it returns the
    empty string for a header or a footer that holds the marker of a
    value that was not set (and the instruction with the value as it is
    otherwise, without a yes or no default); for a name outside the ones
    it handles it reports the name through the sink, with one call of
    [printf], and returns the empty string. *)
Theorem titleBlockTOMLPI_spec (piNotSet : string) (Sink : Type)
    (printf : Sink → string → string → Sink) (sink : Sink)
    (p : pi) (name : string) :
  titleBlockTOMLPI piNotSet printf sink p name 3 = ("", sink)
  ∧ (∀ version : Z, version ≠ 2 →
     titleBlockTOMLPI piNotSet printf sink p name version = ("", sink))
  ∧ (Header p = piNotSet →
     titleBlockTOMLPI piNotSet printf sink p "header" 2 = ("", sink))
  ∧ (Footer p = piNotSet →
     titleBlockTOMLPI piNotSet printf sink p "footer" 2 = ("", sink))
  ∧ (Header p ≠ piNotSet →
     titleBlockTOMLPI piNotSet printf sink p "header" 2 =
     (rfc_pi "header" (Header p), sink))
  ∧ (Footer p ≠ piNotSet →
     titleBlockTOMLPI piNotSet printf sink p "footer" 2 =
     (rfc_pi "footer" (Footer p), sink))
  ∧ (name ∉ pi_names →
     titleBlockTOMLPI piNotSet printf sink p name 2 =
     ("", printf sink "unhandled or unknown PI seen: %s" name)).
Proof.
  repeat split.
  - intros version Hv. unfold titleBlockTOMLPI.
    by destruct (Z.eqb_spec version 2).
  - intros Heq. unfold titleBlockTOMLPI. simpl. by rewrite Heq, String.eqb_refl.
  - intros Heq. unfold titleBlockTOMLPI. simpl. by rewrite Heq, String.eqb_refl.
  - intros Hne. unfold titleBlockTOMLPI. simpl. by rewrite string_eqb_neq.
  - intros Hne. unfold titleBlockTOMLPI. simpl. by rewrite string_eqb_neq.
  - unfold pi_names. rewrite !not_elem_of_cons.
    intros (?&?&?&?&?&?&?&?&?&?&_).
    unfold titleBlockTOMLPI. simpl. by rewrite !string_eqb_neq.
Qed.

(** X20. For a name that is handled nothing is reported, whatever the
    version and the values. *)
Lemma titleBlockTOMLPI_handled (piNotSet : string) (Sink : Type)
    (printf : Sink → string → string → Sink) (sink : Sink)
    (p : pi) (name : string) (version : Z) :
  name ∈ pi_names →
  (titleBlockTOMLPI piNotSet printf sink p name version).2 = sink.
Proof.
  unfold pi_names. rewrite !elem_of_cons, elem_of_nil.
  unfold titleBlockTOMLPI. destruct (version =? 2); [|done].
  intros Hname.
  repeat (destruct Hname as [->|Hname]; [simpl; by repeat case_match|]).
  done.
Qed.

Example titleBlockTOMLPI_examples :
  let p := Pi "" "no" "yes" "" "" "" "" "" "unset" "f" in
  titleBlockTOMLPI "unset" printf_list [] p "toc" 2 =
    ("<?rfc toc=" +:+ dq +:+ "yes" +:+ dq +:+ "?>" +:+ nl, []) ∧
  titleBlockTOMLPI "unset" printf_list [] p "symrefs" 2 =
    ("<?rfc symrefs=" +:+ dq +:+ "no" +:+ dq +:+ "?>" +:+ nl, []) ∧
  titleBlockTOMLPI "unset" printf_list [] p "comments" 2 =
    ("<?rfc comments=" +:+ dq +:+ "no" +:+ dq +:+ "?>" +:+ nl, []) ∧
  titleBlockTOMLPI "unset" printf_list [] p "header" 2 = ("", []) ∧
  titleBlockTOMLPI "unset" printf_list [] p "footer" 2 =
    ("<?rfc footer=" +:+ dq +:+ "f" +:+ dq +:+ "?>" +:+ nl, []) ∧
  titleBlockTOMLPI "unset" printf_list [] p "tocdepth" 2 =
    ("", [Diagnostic "unhandled or unknown PI seen: %s" "tocdepth"]) ∧
  titleBlockTOMLPI "unset" printf_list [] p "toc" 3 = ("", []).
Proof. repeat split; reflexivity. Qed.

(** ** The title block: the author *)

Lemma write_encoded_lines_app (open close : string) (out : list byte)
    (xs : list string) :
  write_encoded_lines open close out xs =
  out ++ write_encoded_lines open close [] xs.
Proof.
  unfold write_encoded_lines. revert out.
  induction xs as [|x xs IH]; intros out; simpl.
  - by rewrite app_nil_r.
  - rewrite IH, (IH (WriteString _ _)). unfold WriteString.
    rewrite !writeEntity_flat_map. simpl. by rewrite <- !app_assoc.
Qed.

Lemma write_raw_lines_app (open close : string) (out : list byte)
    (xs : list string) :
  write_raw_lines open close out xs = out ++ write_raw_lines open close [] xs.
Proof.
  unfold write_raw_lines. revert out.
  induction xs as [|x xs IH]; intros out; simpl.
  - by rewrite app_nil_r.
  - rewrite IH, (IH (WriteString _ _)). unfold WriteString.
    simpl. by rewrite <- !app_assoc.
Qed.

(** C10. For an author with an abbreviation of the organization,
    [titleBlockTOMLAuthor] writes the bytes of the abbreviation as they
    are between the double quotes of the abbrev attribute, whereas the
    initials, the surname, the full name and the organization go through
    the entity encoder. *)
Theorem titleBlockTOMLAuthor_abbrev_raw (out : list byte) (a : author) :
  OrganizationAbbrev a ≠ "" →
  ∃ rest : list byte,
    titleBlockTOMLAuthor out a =
    out ++ bytes_of "<author" ++
    bytes_of " initials=" ++ bytes_of dq ++
    writeEntity [] (bytes_of (Initials a)) ++ bytes_of dq ++
    bytes_of " surname=" ++ bytes_of dq ++
    writeEntity [] (bytes_of (Surname a)) ++ bytes_of dq ++
    bytes_of " fullname=" ++ bytes_of dq ++
    writeEntity [] (bytes_of (Fullname a)) ++
    bytes_of dq ++ bytes_of ">" ++ bytes_of nl ++
    bytes_of "<organization" ++
    bytes_of " abbrev=" ++ bytes_of dq ++
    bytes_of (OrganizationAbbrev a) ++ bytes_of dq ++ bytes_of ">" ++
    writeEntity [] (bytes_of (Organization a)) ++
    bytes_of "</organization>" ++ bytes_of nl ++ rest.
Proof.
  intros Habbrev. eexists. unfold titleBlockTOMLAuthor.
  rewrite !(writeEntity_flat_map []).
  rewrite (string_eqb_neq _ _ Habbrev). simpl negb. cbv iota.
  unfold WriteString. rewrite !writeEntity_flat_map.
  rewrite !(write_encoded_lines_app _ _ (_ ++ _)),
    !(write_raw_lines_app _ _ (_ ++ _)).
  rewrite !(write_encoded_lines_app _ _ (_ ++ _)).
  rewrite !bytes_of_app, <- !app_assoc. reflexivity.
Qed.

Lemma titleBlockTOMLAuthor_abbrev_raw_witness :
  ∃ rest : list byte,
    titleBlockTOMLAuthor []
      (Author "J. R." "Ashworth" "Jay R. Ashworth" "Ashworth & Associates"
         "A&A<>"
         (Address_ "+1 813 790 7592" "jra@scfn.thpl.lib.fl.us" ""
            (Postal_ "" "St. Petersburg" "FL 33709-4819" ""))) =
    [] ++ bytes_of "<author" ++
    bytes_of " initials=" ++ bytes_of dq ++
    writeEntity [] (bytes_of "J. R.") ++ bytes_of dq ++
    bytes_of " surname=" ++ bytes_of dq ++
    writeEntity [] (bytes_of "Ashworth") ++ bytes_of dq ++
    bytes_of " fullname=" ++ bytes_of dq ++
    writeEntity [] (bytes_of "Jay R. Ashworth") ++
    bytes_of dq ++ bytes_of ">" ++ bytes_of nl ++
    bytes_of "<organization" ++
    bytes_of " abbrev=" ++ bytes_of dq ++
    bytes_of "A&A<>" ++ bytes_of dq ++ bytes_of ">" ++
    writeEntity [] (bytes_of "Ashworth & Associates") ++
    bytes_of "</organization>" ++ bytes_of nl ++ rest.
Proof.
  apply (titleBlockTOMLAuthor_abbrev_raw []
    (Author "J. R." "Ashworth" "Jay R. Ashworth" "Ashworth & Associates"
       "A&A<>"
       (Address_ "+1 813 790 7592" "jra@scfn.thpl.lib.fl.us" ""
          (Postal_ "" "St. Petersburg" "FL 33709-4819" "")))).
  simpl. discriminate.
Defined.

Example titleBlockTOMLAuthor_example :
  string_of
    (titleBlockTOMLAuthor []
       (Author "J. R." "Ashworth" "Jay R. Ashworth" "Ashworth & Associates"
          ("A&A<" +:+ dq +:+ ">")
          (Address_ "+1 813 790 7592" "jra@scfn.thpl.lib.fl.us" ""
             (Postal_ "" "St. Petersburg" "FL 33709-4819" "")))) =
  "<author initials=" +:+ dq +:+ "J. R." +:+ dq +:+
  " surname=" +:+ dq +:+ "Ashworth" +:+ dq +:+
  " fullname=" +:+ dq +:+ "Jay R. Ashworth" +:+ dq +:+ ">" +:+ nl +:+
  "<organization abbrev=" +:+ dq +:+ "A&A<" +:+ dq +:+ ">" +:+ dq +:+ ">" +:+
  "Ashworth &amp; Associates</organization>" +:+ nl +:+
  "<address>" +:+ nl +:+ "<postal>" +:+ nl +:+
  "<street></street>" +:+ nl +:+
  "<city>St. Petersburg</city>" +:+ nl +:+
  "<code>FL 33709-4819</code>" +:+ nl +:+
  "<country></country>" +:+ nl +:+
  "</postal>" +:+ nl +:+
  "<phone>+1 813 790 7592</phone>" +:+ nl +:+
  "<email>jra@scfn.thpl.lib.fl.us</email>" +:+ nl +:+
  "<uri></uri>" +:+ nl +:+
  "</address>" +:+ nl +:+ "</author>" +:+ nl.
Proof. vm_compute. reflexivity. Qed.

(** * Further properties *)

(** ** The entity encoder *)

Lemma entity_cases (b : byte) :
  (b = "<"%byte ∧ entity b = bytes_of "&lt;") ∨
  (b = ">"%byte ∧ entity b = bytes_of "&gt;") ∨
  (b = "&"%byte ∧ entity b = bytes_of "&amp;") ∨
  (plain b ∧ entity b = [b]).
Proof.
  unfold entity, plain.
  destruct (Byte.eqb b "<") eqn:H1.
  { apply byte_eqb_eq in H1. by left. }
  destruct (Byte.eqb b ">") eqn:H2.
  { apply byte_eqb_eq in H2. right. by left. }
  destruct (Byte.eqb b "&") eqn:H3.
  { apply byte_eqb_eq in H3. right. right. by left. }
  apply byte_eqb_neq in H1, H2, H3. by repeat right.
Qed.

Lemma flat_map_entity_no_angle (text : list byte) :
  Forall no_angle (flat_map entity text).
Proof.
  induction text as [|b text IH]; simpl; [constructor|].
  apply Forall_app. split; [|done].
  destruct (entity_cases b) as [[_ ->]|[[_ ->]|[[_ ->]|[(?&?&_) ->]]]];
    repeat constructor; done.
Qed.

(** X1. The encoded text holds neither [<] nor [>], whatever the input. *)
Theorem writeEntity_no_angle (text : list byte) :
  Forall no_angle (writeEntity [] text).
Proof. rewrite writeEntity_flat_map. apply flat_map_entity_no_angle. Qed.

Lemma flat_map_entity_inj (text1 text2 : list byte) :
  flat_map entity text1 = flat_map entity text2 → text1 = text2.
Proof.
  revert text2. induction text1 as [|b1 text1 IH]; intros [|b2 text2]; simpl.
  - done.
  - destruct (entity_cases b2) as [[_ ->]|[[_ ->]|[[_ ->]|[_ ->]]]]; done.
  - destruct (entity_cases b1) as [[_ ->]|[[_ ->]|[[_ ->]|[_ ->]]]]; done.
  - destruct (entity_cases b1) as [[-> ->]|[[-> ->]|[[-> ->]|[(?&?&?) ->]]]];
      destruct (entity_cases b2) as [[-> ->]|[[-> ->]|[[-> ->]|[(?&?&?) ->]]]];
      simpl; intros Heq; simplify_eq; try done; f_equal; by apply IH.
Qed.

(** X2. Two texts have the same encoding only when they are the same text:
    the encoding loses nothing. *)
Theorem writeEntity_inj (out text1 text2 : list byte) :
  writeEntity out text1 = writeEntity out text2 ↔ text1 = text2.
Proof.
  split; [|by intros ->].
  rewrite !writeEntity_flat_map. intros Heq%app_inv_head.
  by apply flat_map_entity_inj.
Qed.

(** X3. Encoding a text in two pieces, one after the other, gives the
    encoding of the whole text. *)
Theorem writeEntity_app (out text1 text2 : list byte) :
  writeEntity out (text1 ++ text2) = writeEntity (writeEntity out text1) text2.
Proof. by rewrite !writeEntity_flat_map, flat_map_app, app_assoc. Qed.

Lemma flat_map_entity_plain (text : list byte) :
  Forall plain text → flat_map entity text = text.
Proof.
  induction 1 as [|b text (H1&H2&H3) _ IH]; simpl; [done|].
  destruct (entity_cases b) as [[? _]|[[? _]|[[? _]|[_ ->]]]]; try done.
  simpl. by rewrite IH.
Qed.

Lemma flat_map_entity_same_length (text : list byte) :
  length (flat_map entity text) = length text → Forall plain text.
Proof.
  induction text as [|b text IH]; simpl; [constructor|].
  rewrite length_app. pose proof (flat_map_entity_length text) as Hle.
  destruct (entity_cases b) as [[_ ->]|[[_ ->]|[[_ ->]|[Hb ->]]]];
    simpl; intros Hlen; try lia.
  constructor; [done|]. apply IH. lia.
Qed.

(** X4. The encoder returns a text as it is exactly when the text holds no
    [<], [>] or [&]; quotes and apostrophes are not replaced. *)
Theorem writeEntity_id_iff (text : list byte) :
  writeEntity [] text = text ↔ Forall plain text.
Proof.
  rewrite writeEntity_flat_map. simpl. split.
  - intros Heq. apply flat_map_entity_same_length. by rewrite Heq.
  - apply flat_map_entity_plain.
Qed.

Example writeEntity_quotes :
  writeEntity [] (bytes_of ("it's " +:+ dq +:+ "x" +:+ dq)) =
  bytes_of ("it's " +:+ dq +:+ "x" +:+ dq).
Proof. reflexivity. Qed.

(** ** The markup stripper *)

Lemma no_angle_eqb (b : byte) :
  no_angle b ↔ Byte.eqb b "<" = false ∧ Byte.eqb b ">" = false.
Proof. unfold no_angle. by rewrite !byte_eqb_neq. Qed.

Lemma Forall_no_angle_eqb (s : list byte) :
  Forall no_angle s ↔
  Forall (λ b, Byte.eqb b "<" = false ∧ Byte.eqb b ">" = false) s.
Proof. apply Forall_proper; [|done]. intros b. apply no_angle_eqb. Qed.

Lemma writeSanitizeXML_loop_sublist (inTag : bool) (s : list byte) :
  writeSanitizeXML_loop inTag [] s `sublist_of` s.
Proof.
  revert inTag. induction s as [|b s IH]; intros inTag; simpl; [done|].
  destruct (Byte.eqb b "<"); [by apply sublist_cons|].
  destruct (Byte.eqb b ">"); [by apply sublist_cons|].
  destruct inTag; simpl; [by apply sublist_cons|].
  rewrite writeSanitizeXML_loop_app. simpl. by apply sublist_skip.
Qed.

(** X6. [sanitizeXML] only removes bytes: its result is made of bytes of the
    input in their order, none of them [<] or [>], so it is not longer
    than the input. *)
Theorem sanitizeXML_sublist (s : list byte) :
  ∃ r : list byte,
    sanitizeXML s = Some r
    ∧ r `sublist_of` s
    ∧ Forall no_angle r
    ∧ (length r ≤ length s)%nat.
Proof.
  exists (writeSanitizeXML_loop false [] s).
  split; [apply sanitizeXML_total|].
  split; [apply writeSanitizeXML_loop_sublist|].
  split.
  - apply Forall_no_angle_eqb, writeSanitizeXML_loop_plain.
  - apply sublist_length, writeSanitizeXML_loop_sublist.
Qed.

Lemma sanitizeXML_no_angle_id (s : list byte) :
  Forall no_angle s → sanitizeXML s = Some s.
Proof.
  rewrite sanitizeXML_total, Forall_no_angle_eqb.
  intros Hs. f_equal. by apply writeSanitizeXML_loop_id.
Qed.

(** X7. [sanitizeXML] returns its input as it is exactly when the input
    holds neither [<] nor [>]. *)
Theorem sanitizeXML_id_iff (s : list byte) :
  sanitizeXML s = Some s ↔ Forall no_angle s.
Proof.
  split; [|apply sanitizeXML_no_angle_id].
  rewrite sanitizeXML_total, Forall_no_angle_eqb.
  intros [= Heq]. rewrite <- Heq. apply writeSanitizeXML_loop_plain.
Qed.

Lemma writeSanitizeXML_loop_gt (inTag : bool) (out s1 s2 : list byte) :
  writeSanitizeXML_loop inTag out (s1 ++ ">"%byte :: s2) =
  writeSanitizeXML_loop false (writeSanitizeXML_loop inTag out s1) s2.
Proof.
  revert inTag out. induction s1 as [|b s1 IH]; intros inTag out; simpl.
  - done.
  - destruct (Byte.eqb b "<"); [apply IH|].
    destruct (Byte.eqb b ">"); [apply IH|].
    destruct inTag; simpl; apply IH.
Qed.

(** X8. A [>] ends whatever tag is open, so a text cut at a [>] can be
    stripped in two calls: what is after the [>] is stripped as a text of
    its own. *)
Theorem writeSanitizeXML_cut_at_gt (out s1 s2 : list byte) :
  writeSanitizeXML out (s1 ++ ">"%byte :: s2) =
  writeSanitizeXML (writeSanitizeXML out s1) s2.
Proof. apply writeSanitizeXML_loop_gt. Qed.

(** A cut elsewhere can change the result: here a tag is open at the cut
    and the second call does not know of it. *)
Example writeSanitizeXML_cut_in_tag :
  writeSanitizeXML [] (bytes_of "<a" ++ bytes_of "b>c") = bytes_of "c" ∧
  writeSanitizeXML (writeSanitizeXML [] (bytes_of "<a")) (bytes_of "b>c") =
  bytes_of "bc".
Proof. split; reflexivity. Qed.

(** What the loop of [sanitizeXML] does to the slice: [j] only grows,
    the length stays, and the bytes from the final [j] on are not
    written. *)
Lemma sanitizeXML_loop_frame (n : nat) :
  ∀ (i j : nat) (inTag : bool) (s s' : list byte) (j' : nat),
    sanitizeXML_loop n i j inTag s = Some (s', j') →
    (j ≤ j')%nat ∧ length s' = length s ∧ drop j' s' = drop j' s.
Proof.
  induction n as [|n IH]; intros i j inTag s s' j'; simpl.
  - by intros [= -> ->].
  - destruct (s !! i) as [b|]; simpl; [|done].
    destruct (Byte.eqb b "<"); [apply IH|].
    destruct (Byte.eqb b ">"); [apply IH|].
    destruct inTag; simpl; [apply IH|].
    unfold store. case_decide; simpl; [|done].
    intros (Hj & Hlen & Hdrop)%IH.
    rewrite length_insert in Hlen.
    split; [lia|]. split; [done|].
    rewrite Hdrop. apply drop_insert_lt. lia.
Qed.

(** X9. [sanitizeXML] works in the slice of its caller: the result is the
    head of that slice, which keeps its length, and the bytes behind the
    result are the bytes the caller had there. *)
Theorem sanitizeXML_in_caller_slice (s : list byte) :
  ∃ (s' : list byte) (j : nat),
    sanitizeXML_loop (length s) 0 0 false s = Some (s', j)
    ∧ sanitizeXML s = Some (take j s')
    ∧ (j ≤ length s)%nat
    ∧ length s' = length s
    ∧ drop j s' = drop j s.
Proof.
  destruct (sanitizeXML_loop_inv s [] [] false 0 0 s) as [tail Hloop];
    try done.
  simpl in Hloop.
  destruct (sanitizeXML_loop_frame _ _ _ _ _ _ _ Hloop) as (_ & Hlen & Hdrop).
  eexists _, _. split; [exact Hloop|].
  assert (length (writeSanitizeXML_loop false [] s) ≤ length s)%nat as Hj.
  { rewrite <- Hlen, length_app. lia. }
  repeat split; try done.
  unfold sanitizeXML. rewrite Hloop. simpl. unfold slice_to.
  rewrite decide_True; [done|]. rewrite Hlen. done.
Qed.

(** X10. The stripper leaves an encoded text as it is, and the encoding of a
    stripped text holds neither [<] nor [>]. *)
Theorem sanitizeXML_writeEntity (text : list byte) :
  sanitizeXML (writeEntity [] text) = Some (writeEntity [] text)
  ∧ ∃ r : list byte,
      sanitizeXML text = Some r ∧ Forall no_angle (writeEntity [] r).
Proof.
  split.
  { apply sanitizeXML_no_angle_id. rewrite writeEntity_flat_map.
    apply flat_map_entity_no_angle. }
  exists (writeSanitizeXML_loop false [] text).
  split; [apply sanitizeXML_total|].
  rewrite writeEntity_flat_map. apply flat_map_entity_no_angle.
Qed.

(** ** The citation resolver *)

Lemma string_app_inj_r (s1 s2 t : string) : s1 +:+ t = s2 +:+ t → s1 = s2.
Proof.
  revert s2. induction s1 as [|c1 s1 IH]; intros [|c2 s2] Heq; [done| | |].
  - apply (f_equal String.length) in Heq.
    rewrite !string_length_app in Heq. simpl in Heq. lia.
  - apply (f_equal String.length) in Heq.
    rewrite !string_length_app in Heq. simpl in Heq. lia.
  - rewrite !string_app_cons in Heq. injection Heq as -> Heq.
    f_equal. by apply IH.
Qed.

Lemma string_of_inj (l1 l2 : list byte) : string_of l1 = string_of l2 → l1 = l2.
Proof.
  intros Heq. apply (f_equal bytes_of) in Heq.
  by rewrite !String.list_byte_of_string_of_list_byte in Heq.
Qed.

Lemma string_of_app (l1 l2 : list byte) :
  string_of (l1 ++ l2) = string_of l1 +:+ string_of l2.
Proof.
  rewrite <- (String.string_of_list_byte_of_string (_ +:+ _)).
  by rewrite bytes_of_app, !String.list_byte_of_string_of_list_byte.
Qed.

Lemma string_nonempty_length (s : string) : (0 < String.length s)%nat → s ≠ "".
Proof. by destruct s; simpl; [lia|]. Qed.

(** X11. The result is empty only when the link cannot be resolved: shorter
    than four bytes, or with a prefix other than RFC and I-D. A link that
    is resolved gives a result that is not empty, whatever the two URLs
    are. *)
Theorem referenceFile_empty_iff (g : urls) (c : citation) :
  referenceFile g c = "" ↔
  (length (link c) < 4)%nat ∨
  (string_of (take 3 (link c)) ≠ "RFC" ∧ string_of (take 3 (link c)) ≠ "I-D").
Proof.
  split.
  - intros Hempty.
    destruct (decide (length (link c) < 4)%nat) as [|Hlen]; [by left|].
    right. split; intros Hkind.
    + rewrite referenceFile_RFC in Hempty by (done || lia).
      revert Hempty. apply string_nonempty_length.
      rewrite !string_length_app. simpl. lia.
    + destruct (decide (seq c = -1)) as [Hseq|Hseq].
      * rewrite referenceFile_ID_latest in Hempty by (done || lia).
        revert Hempty. apply string_nonempty_length.
        rewrite !string_length_app. simpl. lia.
      * rewrite referenceFile_ID_seq in Hempty by (done || lia).
        revert Hempty. apply string_nonempty_length.
        rewrite !string_length_app. simpl. lia.
  - intros [Hlen|[Hrfc Hid]];
      [by apply referenceFile_short | by apply referenceFile_other].
Qed.

(** X12. Two RFC links with the same result are the same link: different
    RFCs are never resolved to the same file. *)
Theorem referenceFile_RFC_inj (g : urls) (c1 c2 : citation) :
  (4 ≤ length (link c1))%nat → string_of (take 3 (link c1)) = "RFC" →
  (4 ≤ length (link c2))%nat → string_of (take 3 (link c2)) = "RFC" →
  referenceFile g c1 = referenceFile g c2 →
  link c1 = link c2.
Proof.
  intros Hlen1 Hkind1 Hlen2 Hkind2.
  rewrite !referenceFile_RFC by done.
  intros Heq. do 2 apply (inj (String.append _)) in Heq.
  apply string_app_inj_r, string_of_inj in Heq.
  rewrite <- (take_drop 3 (link c1)), <- (take_drop 3 (link c2)), Heq.
  f_equal. apply string_of_inj. by rewrite Hkind1, Hkind2.
Qed.

Lemma referenceFile_RFC_inj_witness :
  link (Citation (bytes_of "RFC2119") "n" (-1)) =
  link (Citation (bytes_of "RFC2119") "i" 7).
Proof.
  apply (referenceFile_RFC_inj current_urls
           (Citation (bytes_of "RFC2119") "n" (-1))
           (Citation (bytes_of "RFC2119") "i" 7)).
  - simpl. lia.
  - reflexivity.
  - simpl. lia.
  - reflexivity.
  - reflexivity.
Defined.

Lemma decimal_value_pad_two (s : string) :
  decimal_value (pad_two s) = decimal_value s.
Proof. unfold pad_two. by destruct (_ <? _)%nat. Qed.

Lemma Sprintf_02d_inj (v1 v2 : Z) :
  0 <= v1 → 0 <= v2 → Sprintf_02d v1 = Sprintf_02d v2 → v1 = v2.
Proof.
  intros Hv1 Hv2. rewrite !Sprintf_02d_nonneg by done.
  intros Heq%(f_equal decimal_value).
  rewrite !decimal_value_pad_two in Heq.
  destruct (Itoa_numeral v1 Hv1) as [_ <-].
  destruct (Itoa_numeral v2 Hv2) as [_ <-].
  by rewrite Heq.
Qed.

(** X13. Two revisions of one Internet-Draft are resolved to two files: for
    the same I-D link, sequence numbers that are not negative and give
    the same result are equal. *)
Theorem referenceFile_ID_seq_inj (g : urls) (c1 c2 : citation) :
  (4 ≤ length (link c1))%nat → string_of (take 3 (link c1)) = "I-D" →
  link c2 = link c1 →
  0 <= seq c1 → 0 <= seq c2 →
  referenceFile g c1 = referenceFile g c2 →
  seq c1 = seq c2.
Proof.
  intros Hlen Hkind Hlink Hseq1 Hseq2.
  rewrite (referenceFile_ID_seq g c1) by (done || lia).
  rewrite (referenceFile_ID_seq g c2) by (rewrite ?Hlink; done || lia).
  rewrite Hlink. intros Heq. do 4 apply (inj (String.append _)) in Heq.
  apply string_app_inj_r in Heq. by apply Sprintf_02d_inj.
Qed.

Lemma referenceFile_ID_seq_inj_witness :
  seq (Citation (bytes_of "I-D.x") "i" 2) = seq (Citation (bytes_of "I-D.x") "n" 2).
Proof.
  apply (referenceFile_ID_seq_inj current_urls
           (Citation (bytes_of "I-D.x") "i" 2)
           (Citation (bytes_of "I-D.x") "n" 2)).
  - simpl. lia.
  - reflexivity.
  - reflexivity.
  - simpl. lia.
  - simpl. lia.
  - reflexivity.
Defined.

(** X14. The fourth byte of an I-D link, the dot after the prefix, is
    skipped and not looked at: two I-D links with the same bytes from
    position 4 on and the same sequence number are resolved to the same
    file, whatever their fourth bytes and their classes. *)
Theorem referenceFile_ID_fourth_byte (g : urls) (c1 c2 : citation) :
  (4 ≤ length (link c1))%nat → string_of (take 3 (link c1)) = "I-D" →
  (4 ≤ length (link c2))%nat → string_of (take 3 (link c2)) = "I-D" →
  drop 4 (link c1) = drop 4 (link c2) →
  seq c1 = seq c2 →
  referenceFile g c1 = referenceFile g c2.
Proof.
  intros Hlen1 Hkind1 Hlen2 Hkind2 Hdrop Hseq.
  destruct (decide (seq c1 = -1)) as [Hlatest|Hpresent].
  - rewrite !referenceFile_ID_latest by (done || congruence).
    by rewrite Hdrop.
  - rewrite !referenceFile_ID_seq by (done || congruence).
    by rewrite Hdrop, Hseq.
Qed.

Lemma referenceFile_ID_fourth_byte_witness :
  referenceFile current_urls (Citation (bytes_of "I-D.x") "i" 2) =
  referenceFile current_urls (Citation (bytes_of "I-D-x") "n" 2).
Proof.
  apply (referenceFile_ID_fourth_byte current_urls
           (Citation (bytes_of "I-D.x") "i" 2)
           (Citation (bytes_of "I-D-x") "n" 2)).
  - simpl. lia.
  - reflexivity.
  - simpl. lia.
  - reflexivity.
  - reflexivity.
  - reflexivity.
Defined.

(** X15. The form without sequence number and the form with one overlap: an
    I-D link that spells [draft-], a name, a dash and the two digits of
    a revision, without sequence number, is resolved to the file of the
    name with that revision as its sequence number. *)
Theorem referenceFile_ID_forms_overlap (g : urls) (name : list byte)
    (t1 t2 : byte) (v : Z) :
  v ≠ -1 →
  referenceFile g
    (Citation (bytes_of "I-D." ++ bytes_of "draft-" ++ name ++
               bytes_of "-" ++ bytes_of (Sprintf_02d v)) t1 (-1)) =
  referenceFile g (Citation (bytes_of "I-D." ++ name) t2 v).
Proof.
  intros Hv.
  rewrite referenceFile_ID_latest by (done || simpl; lia).
  rewrite (referenceFile_ID_seq g (Citation (bytes_of "I-D." ++ name) t2 v))
    by (done || simpl; lia).
  cbv beta iota delta [link seq].
  change (drop 4 (bytes_of "I-D." ++ ?l)) with l.
  rewrite !string_of_app, !String.string_of_list_byte_of_string.
  by rewrite !string_app_assoc.
Qed.

Lemma referenceFile_ID_forms_overlap_witness :
  referenceFile current_urls
    (Citation (bytes_of "I-D." ++ bytes_of "draft-" ++ bytes_of "ietf-dane" ++
               bytes_of "-" ++ bytes_of (Sprintf_02d 2)) "i" (-1)) =
  referenceFile current_urls (Citation (bytes_of "I-D." ++ bytes_of "ietf-dane") "i" 2).
Proof.
  apply (referenceFile_ID_forms_overlap current_urls (bytes_of "ietf-dane")
           "i" "i" 2).
  lia.
Defined.

(** ** The citation catalog *)

Lemma countCitationsAndSort_keys (m : gmap string citation) :
  (countCitationsAndSort m).2 = sort_Strings (map_to_list m).*1.
Proof. by rewrite countCitationsAndSort_eq. Qed.

Lemma StronglySorted_lookup_lt {A : Type} (R : relation A) (l : list A)
    (i j : nat) (x y : A) :
  StronglySorted R l → (i < j)%nat → l !! i = Some x → l !! j = Some y → R x y.
Proof.
  intros Hl. revert i j. induction Hl as [|z l Hl IH Hz]; intros i j Hij Hi Hj.
  - done.
  - destruct j as [|j]; [lia|]. destruct i as [|i]; simpl in *.
    + injection Hi as ->. rewrite Forall_forall in Hz.
      by eapply Hz, list_elem_of_lookup_2.
    + apply (IH i j); [lia|done..].
Qed.

(** X16. The keys come back in strictly ascending order: a key that comes
    before another is smaller in the byte-wise order and differs from
    it, so no key comes twice. *)
Theorem countCitationsAndSort_keys_ascending (m : gmap string citation)
    (i j : nat) (ki kj : string) :
  (i < j)%nat →
  (countCitationsAndSort m).2 !! i = Some ki →
  (countCitationsAndSort m).2 !! j = Some kj →
  String.le ki kj ∧ ki ≠ kj.
Proof.
  rewrite countCitationsAndSort_keys. intros Hij Hi Hj. split.
  - eapply (StronglySorted_lookup_lt String.le); [|done..].
    apply StronglySorted_merge_sort; apply _.
  - intros ->.
    assert (NoDup (sort_Strings (map_to_list m).*1)) as Hnodup.
    { unfold sort_Strings. rewrite merge_sort_Permutation.
      apply NoDup_fst_map_to_list. }
    pose proof (NoDup_lookup _ _ _ _ Hnodup Hi Hj). lia.
Qed.

Lemma countCitationsAndSort_keys_ascending_witness :
  String.le "RFC2119" "libes" ∧ "RFC2119" ≠ "libes".
Proof.
  apply (countCitationsAndSort_keys_ascending
           (<["libes" := Citation (bytes_of "libes") "i" (-1)]>
              (<["RFC2119" := Citation (bytes_of "RFC2119") "n" (-1)]> ∅))
           0 1 "RFC2119" "libes").
  - lia.
  - vm_compute. reflexivity.
  - vm_compute. reflexivity.
Defined.

Lemma class_count_insert (P : citation → Prop) `{!∀ c, Decision (P c)}
    (m : gmap string citation) (k : string) (c : citation) :
  m !! k = None →
  Z.of_nat (size (filter (λ kc, P kc.2) (<[k:=c]> m))) =
  (if decide (P c) then Z.of_nat (size (filter (λ kc, P kc.2) m)) + 1
   else Z.of_nat (size (filter (λ kc, P kc.2) m))).
Proof.
  intros Hk. case_decide as Hc.
  - rewrite map_filter_insert_True by done.
    rewrite map_size_insert_None; [lia|].
    apply map_lookup_filter_None_2. by left.
  - rewrite map_filter_insert_not'; [done|done|]. by rewrite Hk.
Qed.

(** X17. A citation added under a new key adds one to the count of its class,
    if it has one, and its key to the sorted keys; the rest of the
    result stays. *)
Theorem countCitationsAndSort_insert (m : gmap string citation)
    (k : string) (c : citation) :
  m !! k = None →
  countCitationsAndSort (<[k:=c]> m) =
  (if decide (informative c) then (countCitationsAndSort m).1.1 + 1
   else (countCitationsAndSort m).1.1,
   if decide (normative c) then (countCitationsAndSort m).1.2 + 1
   else (countCitationsAndSort m).1.2,
   sort_Strings (k :: (countCitationsAndSort m).2)).
Proof.
  intros Hk. rewrite !countCitationsAndSort_eq. simpl.
  rewrite (class_count_insert informative), (class_count_insert normative)
    by done.
  f_equal. apply sort_Strings_Permutation.
  rewrite map_to_list_insert by done. simpl.
  unfold sort_Strings. by rewrite merge_sort_Permutation.
Qed.

Lemma countCitationsAndSort_insert_witness :
  countCitationsAndSort
    (<["libes" := Citation (bytes_of "libes") "i" (-1)]>
       (<["RFC2119" := Citation (bytes_of "RFC2119") "n" (-1)]> ∅)) =
  (1, 1, ["RFC2119"; "libes"]).
Proof.
  rewrite (countCitationsAndSort_insert
             (<["RFC2119" := Citation (bytes_of "RFC2119") "n" (-1)]> ∅)
             "libes" (Citation (bytes_of "libes") "i" (-1))).
  - vm_compute. reflexivity.
  - vm_compute. reflexivity.
Defined.

(** ** The title block: the process instructions *)

(** X18. [yesno] gives yes only for the value [yes], spelled so, or for no
    value when the default is yes; any other value is read as no. *)
Theorem yesno_yes_iff (s def : string) :
  (yesno s def = "yes" ↔ s = "yes" ∨ (s = "" ∧ def = "yes"))
  ∧ (s ≠ "" → s ≠ "yes" → yesno s def = "no")
  ∧ ((def = "yes" ∨ def = "no") → yesno s def = "yes" ∨ yesno s def = "no").
Proof.
  unfold yesno.
  destruct (String.eqb_spec s "") as [->|Hne].
  { repeat split; try done; try tauto. intros [?|[_ ?]]; done. }
  destruct (String.eqb_spec s "yes") as [->|Hny].
  { repeat split; try done; auto. }
  repeat split; try done; auto. intros [?|[? _]]; done.
Qed.

(** X19. For version 2, each of the seven switches gives one instruction
    whose value is yes or no, and nothing is reported. *)
Theorem titleBlockTOMLPI_switches (piNotSet : string) (Sink : Type)
    (printf : Sink → string → string → Sink) (sink : Sink)
    (p : pi) (name : string) :
  name ∈ ["toc"; "symrefs"; "sortrefs"; "compact"; "topblock"; "comments";
          "subcompact"] →
  ∃ value : string,
    titleBlockTOMLPI piNotSet printf sink p name 2 = (rfc_pi name value, sink)
    ∧ (value = "yes" ∨ value = "no").
Proof.
  rewrite !elem_of_cons, elem_of_nil. unfold titleBlockTOMLPI. simpl.
  intros Hname.
  repeat (destruct Hname as [->|Hname];
          [simpl; eexists; split; [reflexivity|];
           unfold yesno; repeat case_match; auto|]).
  done.
Qed.

Lemma titleBlockTOMLPI_switches_witness :
  ∃ value : string,
    titleBlockTOMLPI "unset" printf_list []
      (Pi "" "no" "yes" "" "" "" "" "" "unset" "f") "symrefs" 2 =
    (rfc_pi "symrefs" value, [])
    ∧ (value = "yes" ∨ value = "no").
Proof.
  apply (titleBlockTOMLPI_switches "unset" (list diagnostic) printf_list []
           (Pi "" "no" "yes" "" "" "" "" "" "unset" "f") "symrefs").
  rewrite !elem_of_cons. right. by left.
Defined.

Lemma titleBlockTOMLPI_handled_witness :
  (titleBlockTOMLPI "unset" printf_list []
     (Pi "" "no" "yes" "" "" "" "" "" "unset" "f") "footer" 2).2 = [].
Proof.
  apply (titleBlockTOMLPI_handled "unset" (list diagnostic) printf_list []
           (Pi "" "no" "yes" "" "" "" "" "" "unset" "f") "footer" 2).
  unfold pi_names. rewrite !elem_of_cons. do 9 right. by left.
Defined.

(** ** The title block: the keywords and the author *)

Lemma write_raw_lines_flat_map (open close : string) (out : list byte)
    (xs : list string) :
  write_raw_lines open close out xs =
  out ++ flat_map (raw_element open close) xs.
Proof.
  unfold write_raw_lines. revert out.
  induction xs as [|x xs IH]; intros out; simpl.
  - by rewrite app_nil_r.
  - rewrite IH. unfold WriteString, raw_element.
    by rewrite !bytes_of_app, <- !app_assoc.
Qed.

Lemma write_encoded_lines_flat_map (open close : string) (out : list byte)
    (xs : list string) :
  write_encoded_lines open close out xs =
  out ++ flat_map (encoded_element open close) xs.
Proof.
  unfold write_encoded_lines. revert out.
  induction xs as [|x xs IH]; intros out; simpl.
  - by rewrite app_nil_r.
  - rewrite IH. unfold WriteString, encoded_element.
    rewrite !writeEntity_flat_map. simpl. by rewrite <- !app_assoc.
Qed.

Lemma flat_map_raw_element_length (open close : string) (xs : list string) :
  length (flat_map (raw_element open close) xs) =
  ((length (bytes_of open) + length (bytes_of close)) * length xs +
   length (flat_map bytes_of xs))%nat.
Proof.
  induction xs as [|x xs IH]; cbn [flat_map length]; [lia|].
  unfold raw_element at 1. rewrite !length_app, IH. lia.
Qed.

(** X21. [titleBlockTOMLKeyword] appends one keyword element for each
    keyword, in the order of the list, with the keyword as it is (not
    through the entity encoder) and a line feed behind; a keyword that
    is empty gives an empty element, and a list of keywords written in
    two parts gives what the whole list gives. *)
Theorem titleBlockTOMLKeyword_spec (out : list byte) (keywords more : list string) :
  titleBlockTOMLKeyword out keywords =
  out ++ flat_map (λ k, bytes_of "<keyword>" ++ bytes_of k ++
                        bytes_of "</keyword>" ++ bytes_of nl) keywords
  ∧ titleBlockTOMLKeyword out (keywords ++ more) =
    titleBlockTOMLKeyword (titleBlockTOMLKeyword out keywords) more
  ∧ length (titleBlockTOMLKeyword out keywords) =
    (length out + 20 * length keywords +
     length (flat_map bytes_of keywords))%nat.
Proof.
  unfold titleBlockTOMLKeyword. rewrite !write_raw_lines_flat_map.
  split; [|split].
  - reflexivity.
  - by rewrite flat_map_app, app_assoc.
  - rewrite length_app, flat_map_raw_element_length. simpl. lia.
Qed.

Example titleBlockTOMLKeyword_example :
  string_of (titleBlockTOMLKeyword [] [""; "a<b"]) =
  "<keyword></keyword>" +:+ nl +:+ "<keyword>a<b</keyword>" +:+ nl.
Proof. reflexivity. Qed.

Lemma Split_nl_nonempty (s : string) : Split_nl s ≠ [].
Proof.
  induction s as [|c s IH]; simpl; [done|].
  destruct (Ascii.eqb c LF); [done|]. by destruct (Split_nl s).
Qed.

(** X22. The lines of a field: [Split_nl] cuts at each line feed and nowhere
    else, so there is one piece more than there are line feeds (one
    empty piece for an empty field), no piece holds a line feed, and the
    pieces joined by line feeds give the field back. *)
Theorem Split_nl_spec (s : string) :
  length (Split_nl s) = S (count_LF s)
  ∧ Forall (λ piece, count_LF piece = O) (Split_nl s)
  ∧ Join_nl (Split_nl s) = s.
Proof.
  induction s as [|c s (IHlen & IHall & IHjoin)]; [by repeat constructor|].
  pose proof (Split_nl_nonempty s) as Hne.
  simpl. destruct (Ascii.eqb c LF) eqn:Hc.
  - apply Ascii.eqb_eq in Hc as ->.
    split; [simpl; by rewrite IHlen|]. split; [by constructor|].
    destruct (Split_nl s) as [|piece pieces] eqn:Hs; [done|].
    change (Join_nl ("" :: piece :: pieces))
      with ("" +:+ nl +:+ Join_nl (piece :: pieces)).
    by rewrite IHjoin.
  - destruct (Split_nl s) as [|piece pieces] eqn:Hs; [done|].
    split; [done|]. split.
    + inversion IHall as [|?? Hpiece Hpieces]; subst.
      constructor; [|done]. simpl. by rewrite Hc.
    + rewrite <- IHjoin. by destruct pieces.
Qed.

(** X23. The whole of what [titleBlockTOMLAuthor] writes: the three names and
    the organization through the entity encoder; the abbrev attribute
    only for an abbreviation that is not empty; one element for each
    line of the street, the city, the code and the country, the code as
    it is and the other three through the entity encoder; the phone, the
    email and the uri as they are. *)
Theorem titleBlockTOMLAuthor_spec (out : list byte) (a : author) :
  titleBlockTOMLAuthor out a =
  out ++ bytes_of "<author"
  ++ encoded_element (" initials=" +:+ dq) dq (Initials a)
  ++ encoded_element (" surname=" +:+ dq) dq (Surname a)
  ++ encoded_element (" fullname=" +:+ dq) (dq +:+ ">" +:+ nl) (Fullname a)
  ++ encoded_element
       ("<organization" +:+
        (if decide (OrganizationAbbrev a = "") then ""
         else " abbrev=" +:+ dq +:+ OrganizationAbbrev a +:+ dq) +:+ ">")
       ("</organization>" +:+ nl) (Organization a)
  ++ bytes_of ("<address>" +:+ nl) ++ bytes_of ("<postal>" +:+ nl)
  ++ flat_map (encoded_element "<street>" ("</street>" +:+ nl))
       (Split_nl (Street (Postal (Address a))))
  ++ flat_map (encoded_element "<city>" ("</city>" +:+ nl))
       (Split_nl (City (Postal (Address a))))
  ++ flat_map (raw_element "<code>" ("</code>" +:+ nl))
       (Split_nl (Code (Postal (Address a))))
  ++ flat_map (encoded_element "<country>" ("</country>" +:+ nl))
       (Split_nl (Country (Postal (Address a))))
  ++ bytes_of ("</postal>" +:+ nl)
  ++ raw_element "<phone>" ("</phone>" +:+ nl) (Phone (Address a))
  ++ raw_element "<email>" ("</email>" +:+ nl) (Email (Address a))
  ++ raw_element "<uri>" ("</uri>" +:+ nl) (Uri (Address a))
  ++ bytes_of ("</address>" +:+ nl) ++ bytes_of ("</author>" +:+ nl).
Proof.
  unfold titleBlockTOMLAuthor.
  replace (negb (String.eqb (OrganizationAbbrev a) ""))
    with (if decide (OrganizationAbbrev a = "") then false else true).
  2:{ case_decide as Habbrev; [by rewrite Habbrev|].
      by rewrite string_eqb_neq. }
  rewrite !write_encoded_lines_flat_map, !write_raw_lines_flat_map.
  unfold WriteString, encoded_element, raw_element.
  rewrite !writeEntity_flat_map.
  case_decide; rewrite !bytes_of_app, <- !app_assoc; reflexivity.
Qed.

Example titleBlockTOMLAuthor_lines :
  string_of
    (titleBlockTOMLAuthor []
       (Author "" "" "" "" ""
          (Address_ "" "" ""
             (Postal_ ("1 Main St" +:+ nl +:+ "Suite <2>") "" "" "")))) =
  "<author initials=" +:+ dq +:+ dq +:+ " surname=" +:+ dq +:+ dq +:+
  " fullname=" +:+ dq +:+ dq +:+ ">" +:+ nl +:+
  "<organization></organization>" +:+ nl +:+
  "<address>" +:+ nl +:+ "<postal>" +:+ nl +:+
  "<street>1 Main St</street>" +:+ nl +:+
  "<street>Suite &lt;2&gt;</street>" +:+ nl +:+
  "<city></city>" +:+ nl +:+ "<code></code>" +:+ nl +:+
  "<country></country>" +:+ nl +:+ "</postal>" +:+ nl +:+
  "<phone></phone>" +:+ nl +:+ "<email></email>" +:+ nl +:+
  "<uri></uri>" +:+ nl +:+ "</address>" +:+ nl +:+ "</author>" +:+ nl.
Proof. vm_compute. reflexivity. Qed.

(** ** The entity encoder: every ampersand begins an entity *)

Lemma flat_map_entity_amp (text : list byte) :
  ∀ i : nat,
    flat_map entity text !! i = Some "&"%byte →
    ∃ name : list byte,
      name ∈ [bytes_of "lt;"; bytes_of "gt;"; bytes_of "amp;"]
      ∧ name `prefix_of` drop (S i) (flat_map entity text).
Proof.
  induction text as [|b text IH]; intros i; [done|].
  cbn [flat_map].
  destruct (entity_cases b) as [[_ ->]|[[_ ->]|[[_ ->]|[(_&_&Hamp) ->]]]].
  - destruct i as [|[|[|[|i]]]]; simpl; try done; [|apply IH].
    intros _. exists (bytes_of "lt;"). split; [set_solver|].
    by apply (prefix_app_r (bytes_of "lt;") (bytes_of "lt;")).
  - destruct i as [|[|[|[|i]]]]; simpl; try done; [|apply IH].
    intros _. exists (bytes_of "gt;"). split; [set_solver|].
    by apply (prefix_app_r (bytes_of "gt;") (bytes_of "gt;")).
  - destruct i as [|[|[|[|[|i]]]]]; simpl; try done; [|apply IH].
    intros _. exists (bytes_of "amp;"). split; [set_solver|].
    by apply (prefix_app_r (bytes_of "amp;") (bytes_of "amp;")).
  - destruct i as [|i]; simpl; [by intros [= ->]|apply IH].
Qed.

(** X5. In the encoded text an ampersand is never bare: each one is followed
    by [lt;], [gt;] or [amp;]. *)
Theorem writeEntity_amp_begins_entity (text : list byte) (i : nat) :
  writeEntity [] text !! i = Some "&"%byte →
  ∃ name : list byte,
    name ∈ [bytes_of "lt;"; bytes_of "gt;"; bytes_of "amp;"]
    ∧ name `prefix_of` drop (S i) (writeEntity [] text).
Proof. rewrite writeEntity_flat_map. apply flat_map_entity_amp. Qed.

Lemma writeEntity_amp_begins_entity_witness :
  ∃ name : list byte,
    name ∈ [bytes_of "lt;"; bytes_of "gt;"; bytes_of "amp;"]
    ∧ name `prefix_of` drop 3 (writeEntity [] (bytes_of "A &lt; B")).
Proof.
  apply (writeEntity_amp_begins_entity (bytes_of "A &lt; B") 2).
  reflexivity.
Defined.
